(** * pipe.c: a resizing ring-buffer queue of fixed-size elements

    A shallow embedding of [src/pipe.c] and the properties of its
    specification.

    Conventions of the embedding.
    - [size_t] is a 64-bit unsigned integer: a [Z] in [0, 2^64), every
      addition, subtraction and multiplication written with its wrap-around.
    - The four [char*] fields of [struct pipe] point into one allocation.
      [buffer] is that allocation ([None] is the null pointer) and [bufend],
      [begin], [end_] are byte offsets from its start.
    - [assert] is compiled out, as with [NDEBUG]; [check_invariants] is
      embedded as a boolean function so that theorems can say where its
      assertions hold and where they would fire.
    - The mutex makes every critical section atomic, so a critical section
      is a function on the pipe.  A condition wait hands the pipe to the
      other threads: a [schedule] lists what they do at each wake-up, and a
      wait that finds the schedule empty never wakes.
    - [DEFAULT_MINCAP] depends on the build (2 with [DEBUG], 32 without), so
      it is a parameter of the functions that read it. *)

From Stdlib Require Import ZArith List Lia Bool.
From Stdlib Require Import Strings.Byte.
Import ListNotations.
Local Open Scope Z_scope.

(** ** Machine integers *)

Definition SIZE_BITS : Z := 64.            (* sizeof(size_t)*CHAR_BIT *)
Definition SIZE_MOD : Z := 2 ^ SIZE_BITS.
Definition SIZE_MAX : Z := SIZE_MOD - 1.   (* ~(size_t)0 *)

Definition wrap (z : Z) : Z := z mod SIZE_MOD.

(* #define min(a, b) ((a) <= (b) ? (a) : (b)) *)
Definition min (a b : Z) : Z := if a <=? b then a else b.

(* #define max(a, b) ((a) >= (b) ? (a) : (b)) *)
Definition max (a b : Z) : Z := if a >=? b then a else b.

(** ** Memory *)

Definition mem := list byte.

(* malloc: a fresh block of n bytes; its contents are indeterminate in C and
   zero here. *)
Definition malloc (n : Z) : mem := repeat x00 (Z.to_nat n).

(* The n bytes at offset off.  Reading past the block is undefined in C and
   yields only the bytes that exist here. *)
Definition load (m : mem) (off n : Z) : list byte :=
  firstn (Z.to_nat n) (skipn (Z.to_nat off) m).

(* memcpy(m + off, src, |src|).  Writing past the block is undefined in C;
   here the block keeps its length. *)
Definition store (m : mem) (off : Z) (src : list byte) : mem :=
  firstn (length m)
    (firstn (Z.to_nat off) m ++ src ++ skipn (Z.to_nat off + length src) m).

(* The first n bytes of a caller's array, and the array from byte n on. *)
Definition take (n : Z) (l : list byte) : list byte := firstn (Z.to_nat n) l.
Definition drop (n : Z) (l : list byte) : list byte := skipn (Z.to_nat n) l.

(** ** struct pipe *)

Record pipe : Type := mkpipe {
  elem_size : Z;
  elem_count : Z;
  capacity : Z;
  min_cap : Z;
  max_cap : Z;
  buffer : option mem;
  bufend : Z;
  begin : Z;
  end_ : Z;
  producer_refcount : Z;
  consumer_refcount : Z
}.

Definition set_elem_count (v : Z) (p : pipe) : pipe :=
  mkpipe (elem_size p) v (capacity p) (min_cap p) (max_cap p) (buffer p)
         (bufend p) (begin p) (end_ p) (producer_refcount p) (consumer_refcount p).
Definition set_capacity (v : Z) (p : pipe) : pipe :=
  mkpipe (elem_size p) (elem_count p) v (min_cap p) (max_cap p) (buffer p)
         (bufend p) (begin p) (end_ p) (producer_refcount p) (consumer_refcount p).
Definition set_min_cap (v : Z) (p : pipe) : pipe :=
  mkpipe (elem_size p) (elem_count p) (capacity p) v (max_cap p) (buffer p)
         (bufend p) (begin p) (end_ p) (producer_refcount p) (consumer_refcount p).
Definition set_buffer (v : option mem) (p : pipe) : pipe :=
  mkpipe (elem_size p) (elem_count p) (capacity p) (min_cap p) (max_cap p) v
         (bufend p) (begin p) (end_ p) (producer_refcount p) (consumer_refcount p).
Definition set_bufend (v : Z) (p : pipe) : pipe :=
  mkpipe (elem_size p) (elem_count p) (capacity p) (min_cap p) (max_cap p) (buffer p)
         v (begin p) (end_ p) (producer_refcount p) (consumer_refcount p).
Definition set_begin (v : Z) (p : pipe) : pipe :=
  mkpipe (elem_size p) (elem_count p) (capacity p) (min_cap p) (max_cap p) (buffer p)
         (bufend p) v (end_ p) (producer_refcount p) (consumer_refcount p).
Definition set_end (v : Z) (p : pipe) : pipe :=
  mkpipe (elem_size p) (elem_count p) (capacity p) (min_cap p) (max_cap p) (buffer p)
         (bufend p) (begin p) v (producer_refcount p) (consumer_refcount p).
Definition set_producer_refcount (v : Z) (p : pipe) : pipe :=
  mkpipe (elem_size p) (elem_count p) (capacity p) (min_cap p) (max_cap p) (buffer p)
         (bufend p) (begin p) (end_ p) v (consumer_refcount p).
Definition set_consumer_refcount (v : Z) (p : pipe) : pipe :=
  mkpipe (elem_size p) (elem_count p) (capacity p) (min_cap p) (max_cap p) (buffer p)
         (bufend p) (begin p) (end_ p) (producer_refcount p) v.

(* The bytes behind [buffer]; nothing behind a null pointer. *)
Definition bytes (p : pipe) : mem :=
  match buffer p with Some m => m | None => [] end.

(** ** Helpers of pipe.c *)

Definition fix_bufend (p : pipe) : pipe :=
  set_bufend (wrap (elem_size p * capacity p)) p.

Definition wraps_around (p : pipe) : bool := begin p >? end_ p.

Definition in_bounds (left p right : Z) : bool := (p >=? left) && (p <=? right).

Definition wrap_if_at_end (p begin' end' : Z) : Z :=
  if p =? end' then begin' else p.

(* for(size_t shift = 1; shift < sizeof(size_t)*CHAR_BIT; shift <<= 1)
       n |= n >> shift;
   The fuel bounds the number of iterations. *)
Fixpoint next_pow2_loop (fuel : nat) (shift n : Z) : Z :=
  match fuel with
  | O => n
  | S fuel' =>
      if shift <? SIZE_BITS
      then next_pow2_loop fuel' (wrap (Z.shiftl shift 1)) (Z.lor n (Z.shiftr n shift))
      else n
  end.

Definition next_pow2 (n : Z) : Z :=
  let top := Z.shiftr SIZE_MAX 1 + 1 in
  if n >=? top then n
  else
    let n := wrap (n - 1) in
    let n := next_pow2_loop (Z.to_nat SIZE_BITS) 1 n in
    wrap (n + 1).

(* Returns the new block and the offset in it just past the bytes copied. *)
Definition copy_pipe_into_new_buf (p : pipe) (buf : mem) : mem * Z :=
  if wraps_around p then
    let n1 := wrap (bufend p - begin p) in
    let buf := store buf 0 (load (bytes p) (begin p) n1) in
    let n2 := wrap (end_ p - 0) in
    let buf := store buf n1 (load (bytes p) 0 n2) in
    (buf, n1 + n2)
  else
    let n := wrap (end_ p - begin p) in
    (store buf 0 (load (bytes p) (begin p) n), n).

Definition resize_buffer (p : pipe) (new_size : Z) : pipe :=
  let new_size := if new_size >=? max_cap p then max_cap p else new_size in
  if (new_size <=? elem_count p) || (new_size <? min_cap p) then p
  else
    let new_size_in_bytes := wrap (new_size * elem_size p) in
    let new_buf := malloc new_size_in_bytes in
    let '(new_buf, e) := copy_pipe_into_new_buf p new_buf in
    let p := set_end e p in
    let p := set_begin 0 (set_buffer (Some new_buf) p) in
    let p := set_capacity new_size p in
    fix_bufend p.

Definition push_without_locking (p : pipe) (elems : list byte) (count : Z) : pipe :=
  let elem_count0 := elem_count p in
  let elem_size0 := elem_size p in
  let p :=
    if wrap (elem_count0 + count) >? capacity p
    then resize_buffer p (next_pow2 (wrap (elem_count0 + count)))
    else p in
  let bytes_to_copy := wrap (count * elem_size0) in
  let buffer0 := bytes p in
  let bufend0 := bufend p in
  let e := end_ p in
  let '(m, e, elems, bytes_to_copy) :=
    if negb (wraps_around p) then
      let at_end := min bytes_to_copy (wrap (bufend0 - e)) in
      (store buffer0 e (take at_end elems),
       wrap_if_at_end (e + at_end) 0 bufend0,
       drop at_end elems,
       wrap (bytes_to_copy - at_end))
    else (buffer0, e, elems, bytes_to_copy) in
  let m := store m e (take bytes_to_copy elems) in
  let e := wrap_if_at_end (e + bytes_to_copy) 0 bufend0 in
  let p := set_buffer (option_map (fun _ => m) (buffer p)) p in
  let p := set_end e p in
  set_elem_count (wrap (elem_count p + count)) p.

(* Returns the pipe, the bytes written to target and the number of elements
   copied. *)
Definition pop_without_locking (p : pipe) (count : Z) : pipe * list byte * Z :=
  let elem_count0 := elem_count p in
  let elem_size0 := elem_size p in
  let elems_to_copy := min count elem_count0 in
  let bytes_remaining := wrap (elems_to_copy * elem_size0) in
  let elem_count1 := wrap (elem_count0 - elems_to_copy) in
  let p := set_elem_count elem_count1 p in
  let buffer0 := bytes p in
  let bufend0 := bufend p in
  let begin0 := begin p in
  let first_bytes_to_copy := min bytes_remaining (wrap (bufend0 - begin0)) in
  let target := load buffer0 begin0 first_bytes_to_copy in
  let bytes_remaining := wrap (bytes_remaining - first_bytes_to_copy) in
  let begin1 := wrap_if_at_end (begin0 + first_bytes_to_copy) 0 bufend0 in
  let '(target, begin2) :=
    if bytes_remaining >? 0
    then (target ++ load buffer0 0 bytes_remaining,
          wrap_if_at_end (begin1 + bytes_remaining) 0 bufend0)
    else (target, begin1) in
  let p := set_begin begin2 p in
  let capacity0 := capacity p in
  let p := if elem_count1 <=? capacity0 / 4
           then resize_buffer p (capacity0 / 2) else p in
  (p, target, elems_to_copy).

(** ** Handles *)

(* The address of a [struct pipe].  A producer or a consumer handle is that
   address under another pointer type. *)
Definition addr := Z.
Record producer_t : Type := mkproducer { producer_addr : addr }.
Record consumer_t : Type := mkconsumer { consumer_addr : addr }.

(* DEF_NEW_FUNC(producer): the pipe at address [a] is in state [p]. *)
Definition pipe_producer_new (a : addr) (p : pipe) : producer_t * pipe :=
  (mkproducer a, set_producer_refcount (wrap (producer_refcount p + 1)) p).

(* DEF_NEW_FUNC(consumer) *)
Definition pipe_consumer_new (a : addr) (p : pipe) : consumer_t * pipe :=
  (mkconsumer a, set_consumer_refcount (wrap (consumer_refcount p + 1)) p).

Definition requires_deallocation (p : pipe) : bool :=
  (producer_refcount p =? 0) && (consumer_refcount p =? 0).

(* The three free functions return [None] once the pipe is deallocated. *)
Definition pipe_free (p : pipe) : option pipe :=
  let p := set_producer_refcount (wrap (producer_refcount p - 1)) p in
  let p := set_consumer_refcount (wrap (consumer_refcount p - 1)) p in
  if requires_deallocation p then None else Some p.

Definition pipe_producer_free (p : pipe) : option pipe :=
  let p := set_producer_refcount (wrap (producer_refcount p - 1)) p in
  if requires_deallocation p then None else Some p.

Definition pipe_consumer_free (p : pipe) : option pipe :=
  let p := set_consumer_refcount (wrap (consumer_refcount p - 1)) p in
  let p := if consumer_refcount p =? 0 then set_buffer None p else p in
  if requires_deallocation p then None else Some p.

(** ** Waiting *)

(* What the other threads do to the pipe at each wake-up of a waiter. *)
Definition schedule := list (pipe -> pipe).

Inductive wait_result : Type :=
| Woken (p : pipe) (s : schedule)   (* the loop condition turned false *)
| Asleep (p : pipe).                (* nobody is left to wake the waiter *)

(* for(; elem_count == max_cap && consumer_refcount > 0; ...)
       pthread_cond_wait(&p->just_popped, &p->m); *)
Fixpoint wait_just_popped (max_cap0 : Z) (s : schedule) (p : pipe) : wait_result :=
  if (elem_count p =? max_cap0) && (consumer_refcount p >? 0) then
    match s with
    | [] => Asleep p
    | f :: s' => wait_just_popped max_cap0 s' (f p)
    end
  else Woken p s.

(* while((elem_count = p->elem_count) < count && p->producer_refcount > 0)
       pthread_cond_wait(&p->just_pushed, &p->m); *)
Fixpoint wait_just_pushed (count : Z) (s : schedule) (p : pipe) : wait_result :=
  if (elem_count p <? count) && (producer_refcount p >? 0) then
    match s with
    | [] => Asleep p
    | f :: s' => wait_just_pushed count s' (f p)
    end
  else Woken p s.

(** ** pipe_push and pipe_pop *)

Inductive push_outcome : Type :=
| PushReturned (p : pipe) (s : schedule)
| PushBlocked (p : pipe)     (* waits on just_popped for ever *)
| PushOutOfFuel.

(* The critical section of pipe_push from the end of its wait to the unlock:
   [None] is the early return taken when no consumer is left, otherwise the
   pipe and elems_pushed. *)
Definition push_locked (max_cap0 : Z) (p : pipe) (elems : list byte) (count : Z)
  : option (pipe * Z) :=
  if consumer_refcount p =? 0 then None
  else
    let elems_pushed := min count (wrap (max_cap0 - elem_count p)) in
    Some (push_without_locking p elems elems_pushed, elems_pushed).

(* One unit of fuel per call of pipe_push, the tail call included. *)
Fixpoint pipe_push (fuel : nat) (p : pipe) (elems : list byte) (count : Z)
                   (s : schedule) : push_outcome :=
  match fuel with
  | O => PushOutOfFuel
  | S fuel' =>
      if count =? 0 then PushReturned p s
      else
        let elem_size0 := elem_size p in
        let max_cap0 := max_cap p in
        match wait_just_popped max_cap0 s p with
        | Asleep p => PushBlocked p
        | Woken p s =>
            match push_locked max_cap0 p elems count with
            | None => PushReturned p s
            | Some (p, elems_pushed) =>
                pipe_push fuel' p
                          (drop (wrap (elems_pushed * elem_size0)) elems)
                          (wrap (count - elems_pushed)) s
            end
        end
  end.

Inductive pop_outcome : Type :=
| PopReturned (ret : Z) (target : list byte) (p : pipe) (s : schedule)
| PopBlocked (p : pipe).     (* waits on just_pushed for ever *)

(* if(count > max_cap) count = max_cap; *)
Definition clamp_count (p : pipe) (count : Z) : Z :=
  if count >? max_cap p then max_cap p else count.

(* The critical section of pipe_pop from the end of its wait to the unlock. *)
Definition pop_locked (p : pipe) (count : Z) : pipe * list byte * Z :=
  if elem_count p >? 0 then pop_without_locking p count else (p, [], 0).

Definition pipe_pop (p : pipe) (count : Z) (s : schedule) : pop_outcome :=
  let count := clamp_count p count in
  match wait_just_pushed count s p with
  | Asleep p => PopBlocked p
  | Woken p s =>
      let '(p, target, ret) := pop_locked p count in
      PopReturned ret target p s
  end.

(** ** The functions that read DEFAULT_MINCAP *)

Section Build.

Variable DEFAULT_MINCAP : Z.

(* The assertions of check_invariants, in their order.  Those on the
   pointers bufend, begin and end being non-null are left out: they hold of
   every offset into a non-null buffer. *)
Definition check_invariants (p : pipe) : bool :=
  match buffer p with
  | None => consumer_refcount p =? 0
  | Some _ =>
      negb (elem_size p =? 0)
      && (elem_count p <=? capacity p)
      && (bufend p =? wrap (elem_size p * capacity p))
      && in_bounds 0 (begin p) (bufend p)
      && in_bounds 0 (end_ p) (bufend p)
      && (min_cap p >=? DEFAULT_MINCAP)
      && (min_cap p <=? max_cap p)
      && ((capacity p >=? min_cap p) && (capacity p <=? max_cap p))
      && negb (begin p =? bufend p)
      && (if wraps_around p
          then wrap (elem_size p * elem_count p)
               =? wrap (end_ p - 0 + (bufend p - begin p))
          else wrap (elem_size p * elem_count p) =? wrap (end_ p - begin p))
  end.

Definition pipe_new (elem_size0 limit : Z) : pipe :=
  let min_cap0 := DEFAULT_MINCAP in
  let capacity0 := min_cap0 in
  let max_cap0 := if limit =? 0 then SIZE_MAX
                  else next_pow2 (max limit min_cap0) in
  fix_bufend
    (mkpipe elem_size0 0 capacity0 min_cap0 max_cap0
            (Some (malloc (wrap (elem_size0 * capacity0)))) 0 0 0 1 1).

(* if(count == 0) count = DEFAULT_MINCAP; *)
Definition reserve_count (count : Z) : Z :=
  if count =? 0 then DEFAULT_MINCAP else count.

Definition pipe_reserve (p : pipe) (count : Z) : pipe :=
  let count := reserve_count count in
  let max_cap0 := max_cap p in
  if count <=? elem_count p then p
  else
    let p := set_min_cap (min count max_cap0) p in
    resize_buffer p count.

(** ** Histories *)

(* The atomic actions on one pipe.  Whatever the threads do, the pipe goes
   through a sequence of these: [OpPush] and [OpPop] are one critical section
   of a pipe_push or pipe_pop call whose wait is over. *)
Inductive op : Type :=
| OpPush (elems : list byte) (count : Z)
| OpPop (count : Z)
| OpReserve (count : Z)
| OpProducerNew
| OpConsumerNew
| OpFree
| OpProducerFree
| OpConsumerFree.

(* [None]: the action cannot happen in this state, because the caller has to
   wait or because the pipe is deallocated. *)
Definition exec (p : pipe) (o : op) : option pipe :=
  match o with
  | OpPush elems count =>
      if count =? 0 then Some p
      else
        match wait_just_popped (max_cap p) [] p with
        | Asleep _ => None
        | Woken p _ =>
            match push_locked (max_cap p) p elems count with
            | None => Some p
            | Some (p, _) => Some p
            end
        end
  | OpPop count =>
      let count := clamp_count p count in
      match wait_just_pushed count [] p with
      | Asleep _ => None
      | Woken p _ => Some (fst (fst (pop_locked p count)))
      end
  | OpReserve count => Some (pipe_reserve p count)
  | OpProducerNew => Some (snd (pipe_producer_new 0 p))
  | OpConsumerNew => Some (snd (pipe_consumer_new 0 p))
  | OpFree => pipe_free p
  | OpProducerFree => pipe_producer_free p
  | OpConsumerFree => pipe_consumer_free p
  end.

Fixpoint run (p : pipe) (ops : list op) : option pipe :=
  match ops with
  | [] => Some p
  | o :: ops' =>
      match exec p o with
      | Some p' => run p' ops'
      | None => None
      end
  end.

(* The calls of a program with a single thread. *)
Inductive call : Type :=
| Push (elems : list byte) (count : Z)
| Pop (count : Z)
| Reserve (count : Z).

(* Runs the calls in order and collects the bytes popped; [None] when a call
   never returns. *)
Fixpoint session (p : pipe) (cs : list call) : option (pipe * list byte) :=
  match cs with
  | [] => Some (p, [])
  | Push elems count :: cs' =>
      match pipe_push (S (Z.to_nat count)) p elems count [] with
      | PushReturned p' _ => session p' cs'
      | _ => None
      end
  | Pop count :: cs' =>
      match pipe_pop p count [] with
      | PopReturned _ target p' _ =>
          match session p' cs' with
          | Some (p'', out) => Some (p'', target ++ out)
          | None => None
          end
      | PopBlocked _ => None
      end
  | Reserve count :: cs' => session (pipe_reserve p count) cs'
  end.

End Build.

(* DEFAULT_MINCAP without and with DEBUG. *)
Definition RELEASE_MINCAP : Z := 32.
Definition DEBUG_MINCAP : Z := 2.

Definition valid_build (d : Z) : Prop := d = DEBUG_MINCAP \/ d = RELEASE_MINCAP.

(** ** Predicates of the specification *)

Definition is_pow2 (n : Z) : Prop := exists k, 0 <= k /\ n = 2 ^ k.

(* The value is a size_t. *)
Definition size_t (z : Z) : Prop := 0 <= z < SIZE_MOD.

(* Capacity bounds of the specification, without the power of two. *)
Definition cap_bounds (p : pipe) : Prop :=
  0 <= elem_count p <= capacity p
  /\ 0 <= min_cap p <= capacity p
  /\ capacity p <= max_cap p
  /\ max_cap p <= SIZE_MAX.

(* The arguments of an action are size_t values. *)
Definition op_wf (o : op) : Prop :=
  match o with
  | OpPush _ count | OpPop count | OpReserve count => size_t count
  | _ => True
  end.

(* reserve is only asked for a power of two (or for the default). *)
Definition reserve_pow2 (o : op) : Prop :=
  match o with
  | OpReserve count => count = 0 \/ (is_pow2 count /\ count <= 2 ^ 63)
  | _ => True
  end.


(* The number of elements the pushes of a history offer. *)
Fixpoint total_pushed (ops : list op) : Z :=
  match ops with
  | [] => 0
  | OpPush _ count :: ops' => count + total_pushed ops'
  | _ :: ops' => total_pushed ops'
  end.

(* pipe_push has to wait: the pipe is full and has a consumer. *)
Definition push_waits (max_cap0 : Z) (p : pipe) : bool :=
  (elem_count p =? max_cap0) && (consumer_refcount p >? 0).

(* What the wait of pipe_push relies on and its critical section keeps. *)
Definition push_inv (max_cap0 : Z) (p : pipe) : Prop :=
  0 <= elem_count p <= max_cap0 /\ max_cap p = max_cap0
  /\ max_cap0 <= SIZE_MAX /\ 0 <= consumer_refcount p.

(* A wake-up that ends the wait of pipe_push: the other threads have popped
   something or dropped the last consumer. *)
Definition answers (max_cap0 : Z) (f : pipe -> pipe) : Prop :=
  forall q, push_inv max_cap0 q -> push_waits max_cap0 q = true ->
            push_inv max_cap0 (f q) /\ push_waits max_cap0 (f q) = false.

(* The capacity resize_buffer leaves. *)
Definition resized_capacity (p : pipe) (new_size : Z) : Z :=
  let new_size := if new_size >=? max_cap p then max_cap p else new_size in
  if (new_size <=? elem_count p) || (new_size <? min_cap p)
  then capacity p else new_size.

(* The capacity is a power of two, and so is the bound unless the pipe is
   unbounded. *)
Definition pow2_inv (p : pipe) : Prop :=
  is_pow2 (capacity p) /\ (is_pow2 (max_cap p) \/ max_cap p = SIZE_MAX).

(* What holds of an unbounded pipe while it is drained one element at a
   time: the capacity is at its minimum or the fill is above a quarter. *)
Definition drain_inv (d : Z) (p : pipe) : Prop :=
  cap_bounds p /\ is_pow2 (capacity p) /\ min_cap p = d
  /\ max_cap p = SIZE_MAX
  /\ (capacity p = d \/ capacity p < 4 * elem_count p).

(* The number of elements an action offers to the pipe. *)
Definition pushed (o : op) : Z :=
  match o with OpPush _ count => count | _ => 0 end.

(* One round of the loop of next_pow2 doubles the window of bits of x that
   are or-ed into each bit of the accumulator y. *)
Definition window (k x y : Z) : Prop :=
  forall i, 0 <= i ->
    (Z.testbit y i = true <-> exists d, 0 <= d < k /\ Z.testbit x (i + d) = true).

(* What the other threads of scenario S5 do at a wake-up: one consumer pops
   a batch of three elements. *)
Definition pop_batch (q : pipe) : pipe :=
  match pipe_pop q 3 [] with
  | PopReturned _ _ q' _ => q'
  | PopBlocked q' => q'
  end.

(** ** The ring buffer as a list *)

(* The buffered bytes, oldest first: one run of the block, or two when the
   layout wraps. *)
Definition contents (p : pipe) : list byte :=
  if wraps_around p
  then load (bytes p) (begin p) (bufend p - begin p) ++ load (bytes p) 0 (end_ p)
  else load (bytes p) (begin p) (end_ p - begin p).

(* What check_invariants asserts of the block and its cursors, together with
   the size of the block and with [end_] below the one-past-end offset. *)
Definition layout_ok (p : pipe) : Prop :=
  0 < elem_size p
  /\ 0 <= elem_count p
  /\ bufend p = elem_size p * capacity p
  /\ bufend p < SIZE_MOD
  /\ (exists m, buffer p = Some m /\ Z.of_nat (length m) = bufend p)
  /\ 0 <= begin p < bufend p
  /\ 0 <= end_ p < bufend p
  /\ (if wraps_around p
      then elem_size p * elem_count p = end_ p + (bufend p - begin p)
      else elem_size p * elem_count p = end_ p - begin p).

(* copy_in of the specification: push_without_locking from the point where
   the buffer has been grown. *)
Definition copy_in (p : pipe) (elems : list byte) (count : Z) : pipe :=
  let bytes_to_copy := wrap (count * elem_size p) in
  let buffer0 := bytes p in
  let bufend0 := bufend p in
  let e := end_ p in
  let '(m, e, elems, bytes_to_copy) :=
    if negb (wraps_around p) then
      let at_end := min bytes_to_copy (wrap (bufend0 - e)) in
      (store buffer0 e (take at_end elems),
       wrap_if_at_end (e + at_end) 0 bufend0,
       drop at_end elems,
       wrap (bytes_to_copy - at_end))
    else (buffer0, e, elems, bytes_to_copy) in
  let m := store m e (take bytes_to_copy elems) in
  let e := wrap_if_at_end (e + bytes_to_copy) 0 bufend0 in
  let p := set_buffer (option_map (fun _ => m) (buffer p)) p in
  let p := set_end e p in
  set_elem_count (wrap (elem_count p + count)) p.

(* copy_out of the specification: pop_without_locking up to the point where
   the buffer may shrink. *)
Definition copy_out (p : pipe) (count : Z) : pipe * list byte * Z :=
  let elem_count0 := elem_count p in
  let elem_size0 := elem_size p in
  let elems_to_copy := min count elem_count0 in
  let bytes_remaining := wrap (elems_to_copy * elem_size0) in
  let elem_count1 := wrap (elem_count0 - elems_to_copy) in
  let p := set_elem_count elem_count1 p in
  let buffer0 := bytes p in
  let bufend0 := bufend p in
  let begin0 := begin p in
  let first_bytes_to_copy := min bytes_remaining (wrap (bufend0 - begin0)) in
  let target := load buffer0 begin0 first_bytes_to_copy in
  let bytes_remaining := wrap (bytes_remaining - first_bytes_to_copy) in
  let begin1 := wrap_if_at_end (begin0 + first_bytes_to_copy) 0 bufend0 in
  let '(target, begin2) :=
    if bytes_remaining >? 0
    then (target ++ load buffer0 0 bytes_remaining,
          wrap_if_at_end (begin1 + bytes_remaining) 0 bufend0)
    else (target, begin1) in
  (set_begin begin2 p, target, elems_to_copy).

(* The bytes the pushes of a program hand over, in order. *)
Fixpoint pushed_bytes (cs : list call) : list byte :=
  match cs with
  | [] => []
  | Push elems _ :: cs' => elems ++ pushed_bytes cs'
  | _ :: cs' => pushed_bytes cs'
  end.

(* Along the program no push leaves the pipe full, every array has the size
   its call announces and every block fits the address space. *)
Fixpoint below_full (d : Z) (p : pipe) (cs : list call) : Prop :=
  match cs with
  | [] => True
  | Push elems count :: cs' =>
      size_t count
      /\ Z.of_nat (length elems) = count * elem_size p
      /\ match pipe_push (S (Z.to_nat count)) p elems count [] with
         | PushReturned p' _ =>
             elem_count p' < capacity p'
             /\ elem_size p' * capacity p' < SIZE_MOD
             /\ below_full d p' cs'
         | _ => True
         end
  | Pop count :: cs' =>
      size_t count
      /\ match pipe_pop p count [] with
         | PopReturned _ _ p' _ => below_full d p' cs'
         | PopBlocked _ => True
         end
  | Reserve count :: cs' =>
      size_t count
      /\ elem_size p * capacity (pipe_reserve d p count) < SIZE_MOD
      /\ below_full d (pipe_reserve d p count) cs'
  end.

(** ** Further predicates *)

(* The action is not a reserve. *)
Definition not_reserve (o : op) : Prop :=
  match o with OpReserve _ => False | _ => True end.

(* The refcount is a size_t that one more handle does not overflow. *)
Definition refcount_ok (z : Z) : Prop := 0 <= z < SIZE_MAX.

(* The call is not a reserve below the built-in floor. *)
Definition call_reserve_above (floor : Z) (c : call) : Prop :=
  match c with
  | Reserve count => count = 0 \/ floor <= count
  | _ => True
  end.

(* What a program with one thread keeps of a pipe as long as it never fills
   the buffer exactly and reserves no less than the built-in floor. *)
Definition sane (d : Z) (p : pipe) : Prop :=
  layout_ok p /\ cap_bounds p /\ d <= min_cap p /\ 0 < consumer_refcount p.

(* The pipe a waiter finds after the wake-ups [fs]. *)
Definition wake (fs : schedule) (p : pipe) : pipe :=
  fold_left (fun q f => f q) fs p.


(** ** The worker of a pipeline stage *)

(* #define BUFFER_SIZE 32 *)
Definition BUFFER_SIZE : Z := 32.

(* What a stage function proc(buf, n, out, aux) does to the pipe behind its
   producer handle [out], given the stack buffer and the number of elements
   in it; [None] when it never returns.  The constant [aux] is part of the
   function. *)
Definition pipe_processor_t := mem -> Z -> pipe -> option pipe.

Inductive worker_outcome : Type :=
| WorkerExited (inp outp : option pipe) (s : schedule)
    (* both handles are freed; [None] is a pipe that got deallocated *)
| WorkerBlocked (inp outp : pipe)   (* waits on just_pushed for ever *)
| WorkerStuck (inp : pipe)          (* proc never returns *)
| WorkerOutOfFuel.

(* process_pipe, one unit of fuel per round of its loop.  [buf] is the stack
   array of BUFFER_SIZE elements, [inp] and [outp] are the pipes behind the
   handles p.in and p.out, and the schedule is what the other threads do to
   [inp] when the worker is woken in pipe_pop. *)
Fixpoint process_pipe (fuel : nat) (proc : pipe_processor_t) (buf : mem)
                      (inp outp : pipe) (s : schedule) : worker_outcome :=
  match fuel with
  | O => WorkerOutOfFuel
  | S fuel' =>
      match pipe_pop inp BUFFER_SIZE s with
      | PopBlocked inp => WorkerBlocked inp outp
      | PopReturned bytes_read target inp s =>
          let buf := store buf 0 target in
          if bytes_read =? 0 then
            WorkerExited (pipe_consumer_free inp) (pipe_producer_free outp) s
          else
            match proc buf bytes_read outp with
            | Some outp => process_pipe fuel' proc buf inp outp s
            | None => WorkerStuck inp
            end
      end
  end.

(* The stage function called on a sequence of batches, each copied to the
   start of the stack array. *)
Fixpoint feed (proc : pipe_processor_t) (es : Z) (buf : mem)
              (batches : list (list byte)) (outp : pipe) : option pipe :=
  match batches with
  | [] => Some outp
  | b :: batches' =>
      let buf := store buf 0 b in
      match proc buf (Z.of_nat (length b) / es) outp with
      | Some outp => feed proc es buf batches' outp
      | None => None
      end
  end.


(** ** Arithmetic of next_pow2 *)


Lemma wrap_small z : 0 <= z < SIZE_MOD -> wrap z = z.
Proof. intros H. unfold wrap. apply Z.mod_small. exact H. Qed.

Lemma SIZE_MOD_eq : SIZE_MOD = 18446744073709551616.
Proof. reflexivity. Qed.

Lemma min_spec a b : min a b = Z.min a b.
Proof. unfold min. destruct (Z.leb_spec a b); lia. Qed.

Lemma max_spec a b : max a b = Z.max a b.
Proof. unfold max. rewrite Z.geb_leb. destruct (Z.leb_spec b a); lia. Qed.

Lemma window_init x : window 1 x x.
Proof.
  intros i Hi. split.
  - intros H. exists 0. split; [lia|]. now rewrite Z.add_0_r.
  - intros (d & Hd & H). replace (i + d) with i in H by lia. exact H.
Qed.

Lemma window_step k x y :
  0 <= k -> window k x y -> window (2 * k) x (Z.lor y (Z.shiftr y k)).
Proof.
  intros Hk W i Hi. rewrite Z.lor_spec, Z.shiftr_spec by lia.
  rewrite orb_true_iff, (W i Hi), (W (i + k)) by lia. split.
  - intros [(d & Hd & H) | (d & Hd & H)].
    + exists d. split; [lia | exact H].
    + exists (k + d). split; [lia|]. now rewrite Z.add_assoc.
  - intros (d & Hd & H). destruct (Z.lt_ge_cases d k).
    + left. exists d. split; [lia | exact H].
    + right. exists (d - k). split; [lia|].
      now replace (i + k + (d - k)) with (i + d) by lia.
Qed.

Lemma next_pow2_loop_unroll n :
  next_pow2_loop (Z.to_nat SIZE_BITS) 1 n =
  let n := Z.lor n (Z.shiftr n 1) in
  let n := Z.lor n (Z.shiftr n 2) in
  let n := Z.lor n (Z.shiftr n 4) in
  let n := Z.lor n (Z.shiftr n 8) in
  let n := Z.lor n (Z.shiftr n 16) in
  Z.lor n (Z.shiftr n 32).
Proof. reflexivity. Qed.

Lemma next_pow2_loop_window x :
  window 64 x (next_pow2_loop (Z.to_nat SIZE_BITS) 1 x).
Proof.
  rewrite next_pow2_loop_unroll. cbv zeta.
  change 64 with (2 * (2 * (2 * (2 * (2 * (2 * 1)))))).
  repeat (apply window_step; [lia|]).
  apply window_init.
Qed.

Lemma next_pow2_loop_ones x :
  0 < x < SIZE_MOD ->
  next_pow2_loop (Z.to_nat SIZE_BITS) 1 x = Z.ones (Z.log2 x + 1).
Proof.
  intros Hx. pose proof (Z.log2_nonneg x) as Hl.
  assert (Hl64 : Z.log2 x < 64).
  { apply Z.log2_lt_pow2; [lia|]. rewrite SIZE_MOD_eq in Hx. lia. }
  apply Z.bits_inj'. intros i Hi.
  rewrite Z.testbit_ones by lia.
  destruct (Z.leb_spec 0 i) as [_|]; [|lia]. cbn [andb].
  pose proof (next_pow2_loop_window x i Hi) as W.
  destruct (Z.ltb_spec i (Z.log2 x + 1)) as [Hlt | Hge].
  - apply W. exists (Z.log2 x - i). split; [lia|].
    replace (i + (Z.log2 x - i)) with (Z.log2 x) by lia.
    apply Z.bit_log2. lia.
  - apply not_true_is_false. intros E.
    apply W in E. destruct E as (d & Hd & E).
    rewrite Z.bits_above_log2 in E by lia. discriminate.
Qed.

Lemma next_pow2_loop_zero : next_pow2_loop (Z.to_nat SIZE_BITS) 1 0 = 0.
Proof. reflexivity. Qed.

(* Below the top bit, next_pow2 is the least power of two that is not less
   than its argument. *)
Lemma next_pow2_log2_up n :
  0 < n < 2 ^ 63 -> next_pow2 n = 2 ^ Z.log2_up n.
Proof.
  intros Hn. unfold next_pow2.
  change (Z.shiftr SIZE_MAX 1 + 1) with (2 ^ 63).
  rewrite Z.geb_leb. destruct (Z.leb_spec (2 ^ 63) n) as [|_]; [lia|].
  cbv zeta. rewrite (wrap_small (n - 1)) by (rewrite SIZE_MOD_eq; lia).
  destruct (Z.eq_dec n 1) as [-> | Hn1].
  - reflexivity.
  - rewrite next_pow2_loop_ones by (rewrite SIZE_MOD_eq; lia).
    rewrite Z.ones_equiv.
    assert (Hlu : Z.log2_up n = Z.log2 (n - 1) + 1).
    { unfold Z.log2_up. destruct (Z.compare_spec 1 n); try lia.
      rewrite <- Z.sub_1_r. lia. }
    rewrite Hlu.
    assert (Hb : 2 ^ (Z.log2 (n - 1) + 1) <= 2 ^ 63).
    { apply Z.pow_le_mono_r; [lia|].
      assert (Z.log2 (n - 1) < 63) by (apply Z.log2_lt_pow2; lia). lia. }
    assert (0 < 2 ^ (Z.log2 (n - 1) + 1))
      by (apply Z.pow_pos_nonneg; [lia | pose proof (Z.log2_nonneg (n - 1)); lia]).
    rewrite wrap_small by (rewrite SIZE_MOD_eq; lia). lia.
Qed.

Lemma next_pow2_top n : 2 ^ 63 <= n -> next_pow2 n = n.
Proof.
  intros Hn. unfold next_pow2.
  change (Z.shiftr SIZE_MAX 1 + 1) with (2 ^ 63).
  rewrite Z.geb_leb. destruct (Z.leb_spec (2 ^ 63) n); [reflexivity | lia].
Qed.

Lemma next_pow2_ge n : 0 < n -> n <= next_pow2 n.
Proof.
  intros Hn. destruct (Z.lt_ge_cases n (2 ^ 63)) as [Hlt | Hge].
  - rewrite next_pow2_log2_up by lia.
    destruct (Z.eq_dec n 1) as [-> | ]; [cbn; lia|].
    apply Z.log2_up_spec. lia.
  - rewrite next_pow2_top by lia. lia.
Qed.

Lemma next_pow2_is_pow2 n : 0 < n <= 2 ^ 63 -> is_pow2 (next_pow2 n).
Proof.
  intros Hn. destruct (Z.eq_dec n (2 ^ 63)) as [-> | Hne].
  - exists 63. split; [lia | reflexivity].
  - exists (Z.log2_up n). split; [apply Z.log2_up_nonneg|].
    apply next_pow2_log2_up. lia.
Qed.

Lemma next_pow2_fix n : is_pow2 n -> next_pow2 n = n.
Proof.
  intros (k & Hk & ->). destruct (Z.lt_ge_cases (2 ^ k) (2 ^ 63)) as [Hlt | Hge].
  - rewrite next_pow2_log2_up.
    + now rewrite Z.log2_up_pow2.
    + split; [apply Z.pow_pos_nonneg; lia | exact Hlt].
  - now apply next_pow2_top.
Qed.

Lemma next_pow2_bound n : 0 < n < SIZE_MOD -> next_pow2 n < SIZE_MOD.
Proof.
  intros Hn. rewrite SIZE_MOD_eq in *.
  destruct (Z.lt_ge_cases n (2 ^ 63)) as [Hlt | Hge].
  - rewrite next_pow2_log2_up by lia.
    assert (2 ^ Z.log2_up n <= 2 ^ 63).
    { apply Z.pow_le_mono_r; [lia|].
      destruct (Z.eq_dec n 1) as [-> |]; [cbn; lia|].
      apply Z.log2_up_le_pow2; lia. }
    lia.
  - rewrite next_pow2_top by lia. lia.
Qed.

Lemma next_pow2_le_top n : 0 < n <= 2 ^ 63 -> next_pow2 n <= 2 ^ 63.
Proof.
  intros Hn. destruct (Z.eq_dec n (2 ^ 63)) as [-> | ]; [cbv; congruence|].
  rewrite next_pow2_log2_up by lia.
  apply Z.pow_le_mono_r; [lia|].
  destruct (Z.eq_dec n 1) as [-> | ]; [cbv; congruence|].
  apply Z.log2_up_le_pow2; lia.
Qed.

(** ** The size fields through the internal functions *)

Lemma resize_buffer_fields p n :
  let p' := resize_buffer p n in
  elem_size p' = elem_size p /\ elem_count p' = elem_count p
  /\ min_cap p' = min_cap p /\ max_cap p' = max_cap p
  /\ producer_refcount p' = producer_refcount p
  /\ consumer_refcount p' = consumer_refcount p
  /\ capacity p' = resized_capacity p n.
Proof.
  unfold resize_buffer, resized_capacity. cbv zeta.
  destruct (_ || _); [repeat split|].
  destruct (copy_pipe_into_new_buf p _) as [nb e]. repeat split.
Qed.

Lemma push_without_locking_fields p elems count :
  let p' := push_without_locking p elems count in
  elem_size p' = elem_size p
  /\ elem_count p' = wrap (elem_count p + count)
  /\ min_cap p' = min_cap p /\ max_cap p' = max_cap p
  /\ producer_refcount p' = producer_refcount p
  /\ consumer_refcount p' = consumer_refcount p
  /\ capacity p' =
     if wrap (elem_count p + count) >? capacity p
     then resized_capacity p (next_pow2 (wrap (elem_count p + count)))
     else capacity p.
Proof.
  unfold push_without_locking. cbv zeta.
  pose proof (resize_buffer_fields p (next_pow2 (wrap (elem_count p + count)))) as R.
  cbv zeta in R. destruct R as (R1 & R2 & R3 & R4 & R5 & R6 & R7).
  destruct (wrap (elem_count p + count) >? capacity p).
  - destruct (negb _); cbn; rewrite ?R1, ?R2, ?R3, ?R4, ?R5, ?R6, ?R7; repeat split.
  - destruct (negb _); cbn; repeat split.
Qed.

Lemma pop_without_locking_shape p count :
  exists b target,
    pop_without_locking p count =
    (let ec := wrap (elem_count p - min count (elem_count p)) in
     let q := set_begin b (set_elem_count ec p) in
     (if ec <=? capacity p / 4 then resize_buffer q (capacity p / 2) else q,
      target, min count (elem_count p))).
Proof.
  unfold pop_without_locking. cbv zeta.
  match goal with
  | |- context [if ?c then (?a, ?b) else (?a', ?b')] =>
      destruct c; eexists; eexists; reflexivity
  end.
Qed.

Lemma pop_without_locking_fields p count :
  let '(p', target, ret) := pop_without_locking p count in
  ret = min count (elem_count p)
  /\ elem_size p' = elem_size p
  /\ elem_count p' = wrap (elem_count p - ret)
  /\ min_cap p' = min_cap p /\ max_cap p' = max_cap p
  /\ producer_refcount p' = producer_refcount p
  /\ consumer_refcount p' = consumer_refcount p
  /\ capacity p' =
     if wrap (elem_count p - ret) <=? capacity p / 4
     then resized_capacity (set_elem_count (wrap (elem_count p - ret)) p) (capacity p / 2)
     else capacity p.
Proof.
  destruct (pop_without_locking_shape p count) as (b & target & ->).
  cbv beta iota zeta.
  destruct (wrap (elem_count p - min count (elem_count p)) <=? capacity p / 4).
  - match goal with
    | |- context [resize_buffer ?q ?n] =>
        pose proof (resize_buffer_fields q n) as R; cbv zeta in R;
        destruct R as (R1 & R2 & R3 & R4 & R5 & R6 & R7)
    end.
    rewrite R1, R2, R3, R4, R5, R6, R7. repeat split.
  - repeat split.
Qed.

(** ** Invariants of the atomic actions *)

Ltac zbool :=
  rewrite ?Z.geb_leb, ?Z.gtb_ltb in *;
  repeat match goal with
  | |- context [?a <=? ?b] => destruct (Z.leb_spec a b)
  | |- context [?a <? ?b] => destruct (Z.ltb_spec a b)
  | |- context [?a =? ?b] => destruct (Z.eqb_spec a b)
  | H : context [?a <=? ?b] |- _ => destruct (Z.leb_spec a b)
  | H : context [?a <? ?b] |- _ => destruct (Z.ltb_spec a b)
  | H : context [?a =? ?b] |- _ => destruct (Z.eqb_spec a b)
  end;
  cbn [orb andb negb] in *.

Lemma SIZE_MAX_eq : SIZE_MAX = 18446744073709551615.
Proof. reflexivity. Qed.

Lemma wait_just_popped_nil m p :
  wait_just_popped m [] p = if push_waits m p then Asleep p else Woken p [].
Proof. reflexivity. Qed.

Lemma wait_just_pushed_nil c p :
  wait_just_pushed c [] p =
  if (elem_count p <? c) && (producer_refcount p >? 0) then Asleep p else Woken p [].
Proof. reflexivity. Qed.

Lemma exec_push_cases d p elems count p' :
  exec d p (OpPush elems count) = Some p' ->
  p' = p \/
  (count <> 0 /\ push_waits (max_cap p) p = false /\ consumer_refcount p <> 0 /\
   p' = push_without_locking p elems (min count (wrap (max_cap p - elem_count p)))).
Proof.
  cbn [exec]. destruct (Z.eqb_spec count 0) as [|Hc].
  - intros [= <-]. now left.
  - rewrite wait_just_popped_nil. destruct (push_waits _ p) eqn:W; [discriminate|].
    unfold push_locked. destruct (Z.eqb_spec (consumer_refcount p) 0).
    + intros [= <-]. now left.
    + intros [= <-]. right. repeat split; assumption.
Qed.

Lemma exec_pop_cases d p count p' :
  exec d p (OpPop count) = Some p' ->
  p' = p \/
  (0 < elem_count p /\
   p' = fst (fst (pop_without_locking p (clamp_count p count)))).
Proof.
  cbn [exec]. rewrite wait_just_pushed_nil.
  destruct (_ && _); [discriminate|].
  unfold pop_locked. rewrite Z.gtb_ltb.
  destruct (Z.ltb_spec 0 (elem_count p)).
  - intros [= <-]. right. split; [assumption | reflexivity].
  - intros [= <-]. now left.
Qed.

Lemma exec_free_cases d p o p' :
  match o with OpPush _ _ | OpPop _ | OpReserve _ => False | _ => True end ->
  exec d p o = Some p' ->
  elem_size p' = elem_size p /\ elem_count p' = elem_count p
  /\ capacity p' = capacity p /\ min_cap p' = min_cap p /\ max_cap p' = max_cap p.
Proof.
  destruct o; cbn [exec]; try contradiction; intros _.
  - intros [= <-]. repeat split.
  - intros [= <-]. repeat split.
  - unfold pipe_free. destruct (requires_deallocation _); [discriminate|].
    intros [= <-]. repeat split.
  - unfold pipe_producer_free. destruct (requires_deallocation _); [discriminate|].
    intros [= <-]. repeat split.
  - unfold pipe_consumer_free. destruct (requires_deallocation _); [discriminate|].
    intros [= <-]. destruct (_ =? 0); repeat split.
Qed.

Lemma pipe_reserve_fields d p count :
  let n := reserve_count d count in
  let p' := pipe_reserve d p count in
  elem_size p' = elem_size p /\ elem_count p' = elem_count p
  /\ max_cap p' = max_cap p
  /\ producer_refcount p' = producer_refcount p
  /\ consumer_refcount p' = consumer_refcount p
  /\ min_cap p' = (if n <=? elem_count p then min_cap p else min n (max_cap p))
  /\ capacity p' =
     (if n <=? elem_count p then capacity p
      else resized_capacity (set_min_cap (min n (max_cap p)) p) n).
Proof.
  unfold pipe_reserve. cbv zeta.
  destruct (reserve_count d count <=? elem_count p); [repeat split|].
  match goal with
  | |- context [resize_buffer ?q ?n] =>
      pose proof (resize_buffer_fields q n) as R; cbv zeta in R;
      destruct R as (R1 & R2 & R3 & R4 & R5 & R6 & R7)
  end.
  rewrite R1, R2, R3, R4, R5, R6, R7. repeat split.
Qed.

Lemma push_without_locking_cap_bounds p elems k :
  cap_bounds p -> 0 <= k -> elem_count p + k <= max_cap p ->
  cap_bounds (push_without_locking p elems k)
  /\ elem_count (push_without_locking p elems k) = elem_count p + k.
Proof.
  intros (He & Hm & Hc & Hx) Hk Hs. unfold cap_bounds.
  destruct (push_without_locking_fields p elems k) as (_ & E & M & X & _ & _ & C).
  rewrite SIZE_MAX_eq in *.
  rewrite wrap_small in E, C by (rewrite SIZE_MOD_eq; lia).
  rewrite E, M, X, C. clear E M X C.
  unfold resized_capacity.
  destruct (Z.ltb_spec (capacity p) (elem_count p + k)) as [Hgrow|];
    rewrite Z.gtb_ltb;
    [|destruct (Z.ltb_spec (capacity p) (elem_count p + k)); lia].
  destruct (Z.ltb_spec (capacity p) (elem_count p + k)); [|lia].
  pose proof (next_pow2_ge (elem_count p + k) ltac:(lia)).
  zbool; lia.
Qed.

Lemma push_chunk_range m p count :
  0 <= elem_count p <= m -> m <= SIZE_MAX -> size_t count ->
  let k := min count (wrap (m - elem_count p)) in
  0 <= k <= count /\ elem_count p + k <= m /\
  (count <> 0 -> elem_count p <> m -> 0 < k).
Proof.
  intros He Hm Hc. unfold size_t in Hc. rewrite SIZE_MAX_eq, SIZE_MOD_eq in *.
  cbv zeta. rewrite wrap_small by (rewrite SIZE_MOD_eq; lia).
  rewrite min_spec. lia.
Qed.

Lemma pop_without_locking_cap_bounds p count :
  cap_bounds p -> 0 <= count ->
  let p' := fst (fst (pop_without_locking p count)) in
  cap_bounds p' /\ 0 <= elem_count p' <= elem_count p.
Proof.
  intros (He & Hm & Hc & Hx) Hn. cbv zeta. unfold cap_bounds.
  pose proof (pop_without_locking_fields p count) as F.
  destruct (pop_without_locking p count) as [[p' t] r]. cbn [fst].
  destruct F as (-> & _ & E & M & X & _ & _ & C).
  rewrite SIZE_MAX_eq in *. rewrite min_spec in *.
  rewrite wrap_small in E, C by (rewrite SIZE_MOD_eq; lia).
  rewrite E, M, X, C. clear E M X C.
  unfold resized_capacity. cbn [max_cap elem_count min_cap capacity set_elem_count].
  pose proof (Z.div_le_upper_bound (capacity p) 2 (capacity p) ltac:(lia) ltac:(lia)).
  pose proof (Z.div_pos (capacity p) 2 ltac:(lia) ltac:(lia)).
  zbool; lia.
Qed.

Lemma pipe_reserve_cap_bounds d p count :
  0 <= d -> 0 <= count -> cap_bounds p -> cap_bounds (pipe_reserve d p count).
Proof.
  intros Hd Hn (He & Hm & Hc & Hx). unfold cap_bounds.
  destruct (pipe_reserve_fields d p count) as (_ & E & X & _ & _ & M & C).
  rewrite E, X, M, C. clear E X M C.
  unfold resized_capacity, reserve_count.
  cbn [max_cap elem_count min_cap capacity set_min_cap].
  rewrite !min_spec. zbool; lia.
Qed.

Lemma exec_cap_bounds d p o p' :
  0 <= d -> op_wf o -> cap_bounds p -> exec d p o = Some p' ->
  cap_bounds p' /\ max_cap p' = max_cap p
  /\ elem_count p' <= elem_count p + pushed o.
Proof.
  intros Hd Hwf Hb Hex. pose proof Hb as (He & Hm & Hc & Hx).
  destruct o; cbn [op_wf pushed] in *;
    try (match type of Hex with
         | exec _ _ ?o = _ =>
             destruct (exec_free_cases d p o p' I Hex) as (_ & E & C & M & X)
         end;
         unfold cap_bounds; rewrite E, C, M, X; repeat split; lia).
  - destruct (exec_push_cases _ _ _ _ _ Hex) as [-> | (Hc0 & W & _ & ->)].
    + unfold size_t in Hwf. repeat split; try assumption; lia.
    + destruct (push_chunk_range (max_cap p) p count) as (K1 & K2 & _);
        [lia | lia | assumption |]. cbv zeta in K1, K2.
      destruct (push_without_locking_cap_bounds p elems
                  (min count (wrap (max_cap p - elem_count p)))) as (B & E);
        [assumption | lia | lia |].
      split; [exact B|]. split; [|lia].
      apply (push_without_locking_fields p elems).
  - destruct (exec_pop_cases _ _ _ _ Hex) as [-> | (_ & ->)].
    + repeat split; try assumption; lia.
    + assert (0 <= clamp_count p count).
      { unfold clamp_count, size_t in *. zbool; lia. }
      destruct (pop_without_locking_cap_bounds p (clamp_count p count)) as (B & E);
        [assumption | assumption |].
      split; [exact B|]. split; [|lia].
      pose proof (pop_without_locking_fields p (clamp_count p count)) as F.
      destruct (pop_without_locking p _) as [[q t] r]. cbn [fst].
      apply F.
  - cbn [exec] in Hex. injection Hex as <-. unfold size_t in Hwf.
    split; [apply pipe_reserve_cap_bounds; [assumption | lia | assumption]|].
    destruct (pipe_reserve_fields d p count) as (_ & E & X & _).
    rewrite E, X. split; [reflexivity | lia].
Qed.

(** ** Invariants of histories *)

Lemma pipe_new_fields d es limit :
  let p := pipe_new d es limit in
  elem_size p = es /\ elem_count p = 0 /\ capacity p = d /\ min_cap p = d
  /\ max_cap p = (if limit =? 0 then SIZE_MAX else next_pow2 (max limit d))
  /\ producer_refcount p = 1 /\ consumer_refcount p = 1.
Proof. repeat split. Qed.

Lemma pipe_new_cap_bounds d es limit :
  valid_build d -> size_t limit -> cap_bounds (pipe_new d es limit).
Proof.
  intros Hd Hl. unfold cap_bounds.
  destruct (pipe_new_fields d es limit) as (_ & -> & -> & -> & -> & _).
  unfold size_t in Hl. rewrite SIZE_MAX_eq, SIZE_MOD_eq in *.
  assert (Hd' : 2 <= d <= 32) by (destruct Hd; subst; cbv; split; congruence).
  destruct (Z.eqb_spec limit 0); [lia|].
  rewrite max_spec.
  pose proof (next_pow2_ge (Z.max limit d) ltac:(lia)).
  pose proof (next_pow2_bound (Z.max limit d)) as B.
  rewrite SIZE_MOD_eq in B. lia.
Qed.

Lemma run_cap_bounds d ops : forall p p',
  0 <= d -> Forall op_wf ops -> cap_bounds p -> run d p ops = Some p' ->
  cap_bounds p' /\ max_cap p' = max_cap p
  /\ elem_count p' <= elem_count p + total_pushed ops.
Proof.
  induction ops as [|o ops IH]; intros p p' Hd Hwf Hb Hrun.
  - cbn in *. injection Hrun as <-. repeat split; try apply Hb; lia.
  - cbn [run] in Hrun. destruct (exec d p o) as [q|] eqn:Hex; [|discriminate].
    inversion Hwf as [|? ? Ho Hops]; subst.
    destruct (exec_cap_bounds d p o q Hd Ho Hb Hex) as (Bq & Xq & Eq).
    destruct (IH q p' Hd Hops Bq Hrun) as (B' & X' & E').
    split; [exact B'|]. split; [congruence|].
    assert (total_pushed (o :: ops) = pushed o + total_pushed ops)
      by (destruct o; cbn; lia).
    lia.
Qed.

Lemma is_pow2_half c : is_pow2 c -> 1 <= c / 2 -> is_pow2 (c / 2).
Proof.
  intros (k & Hk & ->) H. destruct (Z.eq_dec k 0) as [-> | Hk0].
  - cbn in H. lia.
  - exists (k - 1). split; [lia|].
    replace k with (1 + (k - 1)) at 1 by lia.
    rewrite Z.pow_add_r by lia. change (2 ^ 1) with 2.
    rewrite Z.mul_comm, Z.div_mul by lia. reflexivity.
Qed.

Lemma is_pow2_pos c : is_pow2 c -> 0 < c.
Proof. intros (k & Hk & ->). apply Z.pow_pos_nonneg; lia. Qed.

Lemma valid_build_pow2 d : valid_build d -> is_pow2 d /\ 2 <= d <= 32.
Proof.
  intros [-> | ->].
  - split; [exists 1; split; [lia | reflexivity] | cbv; split; congruence].
  - split; [exists 5; split; [lia | reflexivity] | cbv; split; congruence].
Qed.

Lemma resized_capacity_pow2 p n :
  pow2_inv p -> is_pow2 n -> n <= 2 ^ 63 -> is_pow2 (resized_capacity p n).
Proof.
  intros (Hc & Hx) Hn Hle. unfold resized_capacity. cbv zeta.
  destruct (_ || _); [exact Hc|].
  rewrite Z.geb_leb. destruct (Z.leb_spec (max_cap p) n); [|exact Hn].
  destruct Hx as [Hx | Hx]; [exact Hx|]. rewrite SIZE_MAX_eq in Hx. lia.
Qed.

Lemma exec_pow2 d p o p' :
  valid_build d -> op_wf o -> reserve_pow2 o -> cap_bounds p -> pow2_inv p ->
  elem_count p + pushed o <= 2 ^ 63 ->
  exec d p o = Some p' -> pow2_inv p'.
Proof.
  intros Hd Hwf Hr Hb Hp Hs Hex. pose proof Hb as (He & Hm & Hc & Hx).
  pose proof Hp as (Pc & Px). unfold pow2_inv.
  destruct o; cbn [op_wf pushed reserve_pow2] in *;
    try (match type of Hex with
         | exec _ _ ?o = _ =>
             destruct (exec_free_cases d p o p' I Hex) as (_ & _ & C & _ & X)
         end; rewrite C, X; exact Hp).
  - destruct (exec_push_cases _ _ _ _ _ Hex) as [-> | (Hc0 & W & _ & ->)];
      [exact Hp|].
    destruct (push_chunk_range (max_cap p) p count) as (K1 & K2 & _);
      [lia | lia | assumption |]. cbv zeta in K1, K2.
    set (k := min count (wrap (max_cap p - elem_count p))) in *.
    destruct (push_without_locking_fields p elems k) as (_ & _ & _ & X & _ & _ & C).
    rewrite X, C. split; [|exact Px].
    rewrite SIZE_MAX_eq in *.
    rewrite wrap_small by (rewrite SIZE_MOD_eq; lia).
    rewrite Z.gtb_ltb. destruct (Z.ltb_spec (capacity p) (elem_count p + k)); [|exact Pc].
    apply resized_capacity_pow2; [exact Hp | |].
    + apply next_pow2_is_pow2. lia.
    + apply next_pow2_le_top. lia.
  - destruct (exec_pop_cases _ _ _ _ Hex) as [-> | (Hpos & ->)]; [exact Hp|].
    pose proof (pop_without_locking_fields p (clamp_count p count)) as F.
    destruct (pop_without_locking p _) as [[q t] r]. cbn [fst].
    destruct F as (-> & _ & _ & _ & X & _ & _ & C). rewrite X, C.
    split; [|exact Px].
    destruct (_ <=? _); [|exact Pc].
    unfold resized_capacity. cbn [max_cap elem_count min_cap capacity set_elem_count].
    assert (0 <= clamp_count p count)
      by (unfold clamp_count, size_t in *; zbool; lia).
    rewrite min_spec. rewrite SIZE_MAX_eq in *.
    rewrite wrap_small by (rewrite SIZE_MOD_eq; lia).
    pose proof (is_pow2_pos _ Pc).
    pose proof (Z.div_lt (capacity p) 2 ltac:(lia) ltac:(lia)).
    zbool; try exact Pc; try lia.
    apply is_pow2_half; [exact Pc | lia].
  - cbn [exec] in Hex. injection Hex as <-.
    destruct (pipe_reserve_fields d p count) as (_ & _ & X & _ & _ & _ & C).
    rewrite X, C. split; [|exact Px].
    destruct (_ <=? elem_count p); [exact Pc|].
    destruct (valid_build_pow2 d Hd) as (Pd & Hd2).
    apply (resized_capacity_pow2 (set_min_cap _ p)); [exact Hp | |].
    + unfold reserve_count. destruct (Z.eqb_spec count 0); [exact Pd | tauto].
    + unfold reserve_count. destruct (Z.eqb_spec count 0); [lia | lia].
Qed.

Lemma run_pow2 d ops : forall p p',
  valid_build d -> Forall op_wf ops -> Forall reserve_pow2 ops ->
  cap_bounds p -> pow2_inv p -> elem_count p + total_pushed ops <= 2 ^ 63 ->
  run d p ops = Some p' -> pow2_inv p'.
Proof.
  induction ops as [|o ops IH]; intros p p' Hd Hwf Hr Hb Hp Hs Hrun.
  - cbn in Hrun. injection Hrun as <-. exact Hp.
  - cbn [run] in Hrun. destruct (exec d p o) as [q|] eqn:Hex; [|discriminate].
    inversion Hwf as [|? ? Ho Hops]; subst.
    inversion Hr as [|? ? Ro Rops]; subst.
    destruct (valid_build_pow2 d Hd) as (_ & Hd2).
    assert (Hpush : total_pushed (o :: ops) = pushed o + total_pushed ops)
      by (destruct o; cbn; lia).
    assert (Hnn : 0 <= total_pushed ops).
    { clear - Hops. induction Hops as [|o' ? Ho']; cbn; [lia|].
      destruct o'; cbn in *; unfold size_t in *; lia. }
    assert (Hpo : 0 <= pushed o)
      by (destruct o; cbn in *; unfold size_t in *; lia).
    destruct (exec_cap_bounds d p o q ltac:(lia) Ho Hb Hex) as (Bq & Xq & Eq).
    apply (IH q p'); try assumption.
    + apply (exec_pow2 d p o q); try assumption. lia.
    + lia.
Qed.

Lemma pipe_new_pow2 d es limit :
  valid_build d -> 0 <= limit <= 2 ^ 63 -> pow2_inv (pipe_new d es limit).
Proof.
  intros Hd Hl. destruct (valid_build_pow2 d Hd) as (Pd & Hd2).
  unfold pow2_inv.
  destruct (pipe_new_fields d es limit) as (_ & _ & -> & _ & -> & _).
  split; [exact Pd|].
  destruct (Z.eqb_spec limit 0); [now right | left].
  rewrite max_spec. apply next_pow2_is_pow2. lia.
Qed.

(** ** C2: the bound on the number of buffered elements *)

(* Proves [Forall P ops] for an explicit history. *)
Ltac each_op tac :=
  repeat (apply Forall_cons; [cbn; tac|]); apply Forall_nil.

Ltac size_t_tac := unfold size_t; rewrite ?SIZE_MOD_eq; try exact I; lia.

(** C2 (as amended).  For a pipe created by pipe_new(elem_size, limit) with
    limit > 0, in every state the pipe goes through the number of buffered
    elements is at most max_cap, and max_cap is
    next_pow2(max(limit, DEFAULT_MINCAP)): the limit rounded up.  It is the
    limit itself when the limit is a power of two that is not below
    DEFAULT_MINCAP, so with limit = 8 the count never exceeds 8 in a DEBUG
    build. *)
Theorem elem_count_le_max_cap d es limit ops p :
  valid_build d -> 0 < limit < SIZE_MOD -> Forall op_wf ops ->
  run d (pipe_new d es limit) ops = Some p ->
  elem_count p <= max_cap p
  /\ max_cap p = next_pow2 (Z.max limit d)
  /\ (is_pow2 limit -> d <= limit -> elem_count p <= limit)
  /\ (limit = 8 -> d = DEBUG_MINCAP -> elem_count p <= 8).
Proof.
  intros Hd Hl Hwf Hrun.
  destruct (valid_build_pow2 d Hd) as (_ & Hd2).
  assert (Hb : cap_bounds (pipe_new d es limit))
    by (apply pipe_new_cap_bounds; [assumption | unfold size_t; lia]).
  destruct (run_cap_bounds d ops _ p ltac:(lia) Hwf Hb Hrun) as (B & X & _).
  destruct (pipe_new_fields d es limit) as (_ & _ & _ & _ & M & _).
  rewrite M in X. destruct (Z.eqb_spec limit 0); [lia|].
  rewrite max_spec in X. destruct B as (He & _ & Hc & _).
  split; [lia|]. split; [exact X|].
  assert (P : is_pow2 limit -> d <= limit -> elem_count p <= limit).
  { intros Pl Hdl. rewrite Z.max_l in X by lia.
    rewrite next_pow2_fix in X by exact Pl. lia. }
  split; [exact P|].
  intros -> ->. apply P; [exists 3; split; [lia | reflexivity] | cbv; congruence].
Qed.

(* A DEBUG build with limit = 8: a push of 20 elements stores 8 of them. *)
Lemma elem_count_le_max_cap_witness :
  match run DEBUG_MINCAP (pipe_new DEBUG_MINCAP 1 8)
            [OpPush (repeat x41 20) 20; OpPop 3; OpPush (repeat x42 12) 12] with
  | Some p => elem_count p <= 8
  | None => False
  end.
Proof.
  destruct (run _ _ _) as [p|] eqn:E.
  - pose proof (fun Hl Hwf =>
        elem_count_le_max_cap DEBUG_MINCAP 1 8 _ p (or_introl eq_refl) Hl Hwf E)
      as T.
    apply T; [rewrite SIZE_MOD_eq; lia | | reflexivity | reflexivity].
    each_op size_t_tac.
  - vm_compute in E. discriminate E.
Defined.

(* The bound is not the limit itself: without DEBUG the limit 8 is rounded up to 32, and
    after a push of 9 elements the pipe holds 9. *)
Lemma limit_8_exceeded :
  exists p,
    run RELEASE_MINCAP (pipe_new RELEASE_MINCAP 1 8) [OpPush (repeat x41 9) 9]
    = Some p
    /\ ~ elem_count p <= 8.
Proof.
  eexists. split; [vm_compute; reflexivity|]. cbn. lia.
Qed.

(** ** C5: the capacity invariant *)

Lemma not_pow2_100 : ~ is_pow2 100.
Proof.
  intros (k & Hk & E).
  assert (k <= 6).
  { destruct (Z.le_gt_cases k 6) as [|Hgt]; [assumption|].
    assert (2 ^ 7 <= 2 ^ k) by (apply Z.pow_le_mono_r; lia). lia. }
  assert (Hc : k = 0 \/ k = 1 \/ k = 2 \/ k = 3 \/ k = 4 \/ k = 5 \/ k = 6) by lia.
  repeat (destruct Hc as [-> | Hc]; [discriminate E|]). subst k. discriminate E.
Qed.

(** C5 (as amended).  In every state a pipe goes through, whatever the
    actions, min_cap <= capacity <= max_cap and elem_count <= capacity.  The
    capacity is moreover a power of two as long as reserve is only asked for
    0 or for a power of two, no more than 2^63 elements are offered, and the
    limit is at most 2^63. *)
Theorem capacity_invariant d es limit ops p :
  valid_build d -> size_t limit -> Forall op_wf ops ->
  run d (pipe_new d es limit) ops = Some p ->
  (min_cap p <= capacity p <= max_cap p /\ 0 <= elem_count p <= capacity p)
  /\ (limit <= 2 ^ 63 -> Forall reserve_pow2 ops -> total_pushed ops <= 2 ^ 63 ->
      is_pow2 (capacity p)).
Proof.
  intros Hd Hl Hwf Hrun.
  destruct (valid_build_pow2 d Hd) as (_ & Hd2).
  pose proof (pipe_new_cap_bounds d es limit Hd Hl) as Hb.
  destruct (run_cap_bounds d ops _ p ltac:(lia) Hwf Hb Hrun) as (B & _).
  split; [unfold cap_bounds in B; lia|].
  intros Hl63 Hr Ht.
  apply (run_pow2 d ops (pipe_new d es limit) p); try assumption.
  apply pipe_new_pow2; [assumption | unfold size_t in Hl; lia].
Qed.

(* A bounded pipe that grows, is reserved and shrinks. *)
Lemma capacity_invariant_witness :
  match run RELEASE_MINCAP (pipe_new RELEASE_MINCAP 4 1000)
            [OpPush (repeat x41 400) 100; OpReserve 256; OpPop 90;
             OpPush (repeat x42 2000) 500; OpReserve 0; OpPop 505] with
  | Some p =>
      (min_cap p <= capacity p <= max_cap p /\ 0 <= elem_count p <= capacity p)
      /\ is_pow2 (capacity p)
  | None => False
  end.
Proof.
  destruct (run _ _ _) as [p|] eqn:E.
  - pose proof (fun Hl Hwf =>
        capacity_invariant RELEASE_MINCAP 4 1000 _ p (or_intror eq_refl) Hl Hwf E)
      as T.
    destruct T as (B & P).
    + unfold size_t; rewrite SIZE_MOD_eq; lia.
    + each_op size_t_tac.
    + split; [exact B|]. apply P; [lia | | cbn; lia].
      each_op ltac:(first [ exact I | left; reflexivity
                          | right; split; [exists 8; split; [lia | reflexivity] | lia] ]).
  - vm_compute in E. discriminate E.
Defined.

(* The capacity is not always a power of two: reserve(100) on a fresh pipe leaves capacity 100. *)
Lemma reserve_breaks_power_of_two :
  exists p,
    run RELEASE_MINCAP (pipe_new RELEASE_MINCAP 1 0) [OpReserve 100] = Some p
    /\ ~ is_pow2 (capacity p).
Proof.
  eexists. split; [vm_compute; reflexivity|]. exact not_pow2_100.
Qed.

(** ** C3: what pipe_pop returns *)



Lemma wake_cons f fs p : wake (f :: fs) p = wake fs (f p).
Proof. reflexivity. Qed.


(* As long as no wake-up finds the elements asked for or no producer, the
   pop goes on waiting. *)
Lemma pipe_pop_waits_meanwhile p count : forall s,
  (forall k, (k <= length s)%nat ->
     elem_count (wake (firstn k s) p) < clamp_count p count
     /\ 0 < producer_refcount (wake (firstn k s) p)) ->
  pipe_pop p count s = PopBlocked (wake s p).
Proof.
  unfold pipe_pop. cbv zeta. generalize (clamp_count p count) as n. intros n s.
  revert p. induction s as [|f s IH]; intros p Hw.
  - destruct (Hw 0%nat ltac:(cbn; lia)) as (H1 & H2).
    cbn [firstn wake fold_left] in *. cbn [wait_just_pushed].
    rewrite Z.gtb_ltb.
    destruct (Z.ltb_spec (elem_count p) n); [|lia].
    destruct (Z.ltb_spec 0 (producer_refcount p)); [|lia]. reflexivity.
  - destruct (Hw 0%nat ltac:(cbn; lia)) as (H1 & H2).
    cbn [firstn wake fold_left] in H1, H2. cbn [wait_just_pushed].
    rewrite Z.gtb_ltb.
    destruct (Z.ltb_spec (elem_count p) n); [|lia].
    destruct (Z.ltb_spec 0 (producer_refcount p)); [|lia].
    cbn [andb]. rewrite wake_cons. apply IH.
    intros k Hk. apply (Hw (S k)). cbn. lia.
Qed.




(** ** C4: pushing when no consumer is left *)

(** C4.  When consumer_refcount is 0, pipe_push returns without waiting,
    whatever the other threads would do, and leaves the pipe as it was. *)
Theorem push_without_consumers fuel p elems count s :
  consumer_refcount p = 0 ->
  pipe_push (S fuel) p elems count s = PushReturned p s.
Proof.
  intros Hc. cbn [pipe_push]. destruct (count =? 0); [reflexivity|].
  assert (W : wait_just_popped (max_cap p) s p = Woken p s).
  { destruct s; cbn [wait_just_popped]; rewrite Hc, andb_false_r; reflexivity. }
  rewrite W. unfold push_locked. rewrite Hc. reflexivity.
Qed.

(* A pipe whose only consumer handle has been freed while a producer handle
    is still held. *)
Lemma push_without_consumers_witness :
  match run RELEASE_MINCAP (pipe_new RELEASE_MINCAP 1 0)
            [OpProducerNew; OpConsumerNew; OpFree;
             OpPush (repeat x41 3) 3; OpConsumerFree] with
  | Some p =>
      consumer_refcount p = 0
      /\ pipe_push 1 p (repeat x42 40) 40 [] = PushReturned p []
  | None => False
  end.
Proof.
  destruct (run _ _ _) as [p|] eqn:E; vm_compute in E; [|discriminate E].
  injection E as <-.
  split; [reflexivity|].
  apply push_without_consumers. reflexivity.
Defined.

(** ** C10: minting a handle *)

(** C10.  pipe_producer_new adds one to producer_refcount, and
    pipe_consumer_new to consumer_refcount; each leaves every other field of
    the pipe as it was and returns the address of the same pipe. *)
Theorem handle_new_frame a p :
  0 <= producer_refcount p < SIZE_MAX -> 0 <= consumer_refcount p < SIZE_MAX ->
  (let '(h, p') := pipe_producer_new a p in
   producer_addr h = a
   /\ producer_refcount p' = producer_refcount p + 1
   /\ consumer_refcount p' = consumer_refcount p
   /\ elem_size p' = elem_size p /\ elem_count p' = elem_count p
   /\ capacity p' = capacity p /\ min_cap p' = min_cap p
   /\ max_cap p' = max_cap p /\ buffer p' = buffer p
   /\ bufend p' = bufend p /\ begin p' = begin p /\ end_ p' = end_ p)
  /\
  (let '(h, p') := pipe_consumer_new a p in
   consumer_addr h = a
   /\ consumer_refcount p' = consumer_refcount p + 1
   /\ producer_refcount p' = producer_refcount p
   /\ elem_size p' = elem_size p /\ elem_count p' = elem_count p
   /\ capacity p' = capacity p /\ min_cap p' = min_cap p
   /\ max_cap p' = max_cap p /\ buffer p' = buffer p
   /\ bufend p' = bufend p /\ begin p' = begin p /\ end_ p' = end_ p).
Proof.
  intros Hp Hc. rewrite SIZE_MAX_eq in *.
  unfold pipe_producer_new, pipe_consumer_new.
  cbn [producer_addr consumer_addr set_producer_refcount set_consumer_refcount
       producer_refcount consumer_refcount elem_size elem_count capacity
       min_cap max_cap buffer bufend begin end_].
  rewrite !wrap_small by (rewrite SIZE_MOD_eq; lia).
  repeat split.
Qed.

(* A producer and a consumer handle minted from a fresh pipe at address
    4096. *)
Lemma handle_new_frame_witness :
  (producer_addr (fst (pipe_producer_new 4096 (pipe_new RELEASE_MINCAP 4 0))) = 4096
   /\ producer_refcount (snd (pipe_producer_new 4096 (pipe_new RELEASE_MINCAP 4 0))) = 2)
  /\ (consumer_addr (fst (pipe_consumer_new 4096 (pipe_new RELEASE_MINCAP 4 0))) = 4096
      /\ consumer_refcount (snd (pipe_consumer_new 4096 (pipe_new RELEASE_MINCAP 4 0))) = 2).
Proof.
  destruct (handle_new_frame 4096 (pipe_new RELEASE_MINCAP 4 0)) as (P & C);
    [rewrite SIZE_MAX_eq; cbn; lia | rewrite SIZE_MAX_eq; cbn; lia |].
  unfold pipe_producer_new in P. unfold pipe_consumer_new in C.
  cbv beta iota in P, C.
  destruct P as (P1 & P2 & _). destruct C as (C1 & C2 & _).
  split; split; assumption.
Defined.

(** ** C8: the floor of min_cap *)






(* The floor itself is not kept: reserve(5) on a fresh pipe sets min_cap to
    5, and the assertion min_cap >= DEFAULT_MINCAP of check_invariants no
    longer holds. *)
Lemma reserve_5_breaks_floor :
  min_cap (pipe_reserve RELEASE_MINCAP (pipe_new RELEASE_MINCAP 1 0) 5) = 5
  /\ check_invariants RELEASE_MINCAP
       (pipe_reserve RELEASE_MINCAP (pipe_new RELEASE_MINCAP 1 0) 5) = false.
Proof. split; reflexivity. Qed.

(** ** C9: the chunks of pipe_push *)

Lemma push_waits_false m p :
  push_inv m p -> push_waits m p = false ->
  consumer_refcount p = 0 \/ elem_count p < m.
Proof.
  unfold push_inv, push_waits. intros (He & _ & _ & Hc) W. zbool; lia.
Qed.

(* With a wake-up at hand whenever one is needed, the wait comes to an end,
   and it uses at most one wake-up. *)
Lemma wait_just_popped_answered m s p :
  push_inv m p -> Forall (answers m) s -> (1 <= length s)%nat ->
  exists p1 s1,
    wait_just_popped m s p = Woken p1 s1
    /\ push_inv m p1 /\ push_waits m p1 = false
    /\ Forall (answers m) s1 /\ (length s <= S (length s1))%nat.
Proof.
  intros Hi Hs Hl. destruct s as [|f s]; [cbn in Hl; lia|].
  cbn [wait_just_popped]. fold (push_waits m p).
  destruct (push_waits m p) eqn:W.
  - inversion Hs as [|? ? Hf Hs']; subst.
    destruct (Hf p Hi W) as (Hi' & W').
    exists (f p), s. split.
    + destruct s; cbn [wait_just_popped]; fold (push_waits m (f p));
        rewrite W'; reflexivity.
    + split; [exact Hi'|]. split; [exact W'|]. split; [exact Hs'|]. cbn. lia.
  - exists p, (f :: s).
    split; [reflexivity|]. split; [exact Hi|]. split; [exact W|].
    split; [exact Hs|]. lia.
Qed.

(* A critical section of pipe_push moves at least one element. *)
Lemma push_locked_progress m p elems count p' k :
  push_inv m p -> push_waits m p = false -> size_t count -> count <> 0 ->
  push_locked m p elems count = Some (p', k) ->
  0 < k <= count /\ push_inv m p' /\ elem_count p' = elem_count p + k.
Proof.
  intros Hi W Hc Hc0. unfold push_locked.
  destruct (Z.eqb_spec (consumer_refcount p) 0) as [|Hcons]; [discriminate|].
  intros [= <- <-].
  destruct (push_waits_false m p Hi W) as [|Hlt]; [contradiction|].
  destruct Hi as (He & Hx & Hm & Hcr).
  destruct (push_chunk_range m p count) as (K1 & K2 & K3);
    [lia | lia | assumption |]. cbv zeta in K1, K2, K3.
  set (k := min count (wrap (m - elem_count p))) in *.
  destruct (push_without_locking_fields p elems k) as (_ & E & _ & X & _ & C & _).
  rewrite SIZE_MAX_eq in *.
  rewrite wrap_small in E by (rewrite SIZE_MOD_eq; lia).
  unfold push_inv. rewrite E, X, C, SIZE_MAX_eq.
  repeat split; try lia.
Qed.

Lemma pipe_push_returns_fuel m n : forall p elems count s,
  0 <= count <= Z.of_nat n -> count < SIZE_MOD -> push_inv m p ->
  Forall (answers m) s -> count <= Z.of_nat (length s) ->
  exists p' s', pipe_push (S n) p elems count s = PushReturned p' s'.
Proof.
  induction n as [|n IH]; intros p elems count s Hc Hsz Hi Hs Hl.
  - assert (count = 0) as -> by lia. cbn. eauto.
  - cbn [pipe_push]. destruct (Z.eqb_spec count 0) as [|Hc0]; [eauto|].
    pose proof Hi as (_ & -> & Hm & _).
    destruct (wait_just_popped_answered m s p Hi Hs ltac:(lia))
      as (p1 & s1 & -> & Hi1 & W1 & Hs1 & Hl1).
    destruct (push_locked m p1 elems count) as [[p2 k]|] eqn:L; [|eauto].
    destruct (push_locked_progress m p1 elems count p2 k Hi1 W1
                ltac:(unfold size_t; lia) Hc0 L) as (Hk & Hi2 & _).
    rewrite (wrap_small (count - k)) by lia.
    apply IH; try assumption; lia.
Qed.

(** C9 (as amended).  pipe_push(elems, count) makes at most count + 1 calls
    of itself, hence at most count critical sections, each of which moves at
    least one element or takes the return for a pipe without consumers; and
    it returns, provided each of its waits on a full pipe is answered by a
    wake-up after which the pipe is no longer full or has no consumer. *)
Theorem pipe_push_returns m p elems count s :
  size_t count -> push_inv m p ->
  Forall (answers m) s -> count <= Z.of_nat (length s) ->
  (exists p' s',
     pipe_push (S (Z.to_nat count)) p elems count s = PushReturned p' s')
  /\ (forall q k q',
        push_inv m q -> push_waits m q = false -> count <> 0 ->
        push_locked m q elems count = Some (q', k) ->
        0 < k <= count /\ elem_count q' = elem_count q + k).
Proof.
  intros Hc Hi Hs Hl. unfold size_t in Hc. split.
  - apply (pipe_push_returns_fuel m); try assumption; lia.
  - intros q k q' Hq W Hc0 L.
    destruct (push_locked_progress m q elems count q' k Hq W Hc Hc0 L)
      as (Hk & _ & E).
    split; assumption.
Qed.

Lemma pop_batch_answers m : 3 <= m -> answers m pop_batch.
Proof.
  intros Hm q (He & Hx & Hmax & Hc) W.
  unfold push_waits in W. apply andb_true_iff in W. destruct W as (Wf & Wc).
  apply Z.eqb_eq in Wf.
  unfold pop_batch, pipe_pop, clamp_count. rewrite Hx.
  rewrite Z.gtb_ltb. destruct (Z.ltb_spec m 3) as [|_]; [lia|].
  rewrite wait_just_pushed_nil.
  destruct (Z.ltb_spec (elem_count q) 3) as [|_]; [lia|]. cbn [andb].
  unfold pop_locked. rewrite Z.gtb_ltb.
  destruct (Z.ltb_spec 0 (elem_count q)) as [_|]; [|lia].
  pose proof (pop_without_locking_fields q 3) as F.
  destruct (pop_without_locking q 3) as [[q' t] r].
  destruct F as (-> & _ & E & _ & X & _ & C & _).
  rewrite min_spec in E. rewrite SIZE_MAX_eq in Hmax.
  rewrite wrap_small in E by (rewrite SIZE_MOD_eq; lia).
  unfold push_inv, push_waits. rewrite E, X, C, SIZE_MAX_eq.
  split; [lia|]. zbool; try reflexivity; lia.
Qed.

(* Scenario S5 without DEBUG: the limit 8 gives max_cap = 32; a producer
    pushes 1000 elements while a consumer pops in batches of three. *)
Lemma pipe_push_returns_witness :
  exists p' s',
    pipe_push (S (Z.to_nat 1000)) (pipe_new RELEASE_MINCAP 1 8)
              (repeat x41 1000) 1000 (repeat pop_batch 1000)
    = PushReturned p' s'.
Proof.
  apply (pipe_push_returns 32).
  - unfold size_t. rewrite SIZE_MOD_eq. lia.
  - unfold push_inv. repeat split; try reflexivity; cbv; congruence.
  - apply Forall_forall. intros f Hf. apply repeat_spec in Hf. subst f.
    apply pop_batch_answers. lia.
  - rewrite repeat_length. lia.
Defined.

(* pipe_push does not always return: in a program with one thread, a push of 33 elements
    into a pipe bounded by 32 stores 32 of them and then waits for ever;
    whatever the number of calls allowed, it does not return. *)
Lemma push_into_full_pipe_never_returns :
  ~ exists fuel p' s',
      pipe_push fuel (pipe_new RELEASE_MINCAP 1 32) (repeat x41 33) 33 []
      = PushReturned p' s'.
Proof.
  intros ([|[|fuel]] & p' & s' & H); vm_compute in H; discriminate H.
Qed.

(** ** C7: shrinking back *)

Lemma pow2_lt_double a b : is_pow2 a -> is_pow2 b -> a < b -> 2 * a <= b.
Proof.
  intros (i & Hi & ->) (j & Hj & ->) H.
  apply Z.pow_lt_mono_r_iff in H; [|lia|lia].
  replace (2 * 2 ^ i) with (2 ^ (i + 1)) by (rewrite Z.pow_add_r; lia).
  apply Z.pow_le_mono_r; lia.
Qed.

Lemma pow2_div4 c : is_pow2 c -> 4 <= c -> c = 4 * (c / 4).
Proof.
  intros (k & Hk & ->) H.
  assert (2 <= k).
  { destruct (Z.lt_ge_cases k 2) as [Hlt|]; [|assumption].
    assert (2 ^ k <= 2 ^ 1) by (apply Z.pow_le_mono_r; lia). lia. }
  replace k with (2 + (k - 2)) at 2 by lia.
  rewrite Z.pow_add_r by lia. change (2 ^ 2) with 4.
  rewrite (Z.mul_comm 4 (2 ^ (k - 2))), Z.div_mul by lia.
  replace k with (2 + (k - 2)) at 1 by lia.
  rewrite Z.pow_add_r by lia. lia.
Qed.

Lemma next_pow2_lt_double n : 1 < n <= 2 ^ 63 -> next_pow2 n < 2 * n.
Proof.
  intros Hn. destruct (Z.eq_dec n (2 ^ 63)) as [-> | Hne]; [cbv; reflexivity|].
  rewrite next_pow2_log2_up by lia.
  pose proof (Z.log2_up_spec n ltac:(lia)) as (Hlo & _).
  pose proof (Z.log2_up_pos n ltac:(lia)).
  replace (Z.log2_up n) with (1 + Z.pred (Z.log2_up n)) by lia.
  rewrite Z.pow_add_r by lia. lia.
Qed.

Lemma pop_one_drain_inv d p :
  valid_build d -> drain_inv d p -> 0 < elem_count p ->
  exists target p',
    pipe_pop p 1 [] = PopReturned 1 target p' []
    /\ drain_inv d p' /\ elem_count p' = elem_count p - 1.
Proof.
  intros Hd (Hb & Pc & Hm & Hx & Hq) He.
  destruct (valid_build_pow2 d Hd) as (Pd & Hd2).
  pose proof Hb as (Hec & Hmc & Hcx & _).
  unfold pipe_pop, clamp_count. rewrite Hx.
  change (1 >? SIZE_MAX) with false. cbv iota.
  rewrite wait_just_pushed_nil.
  destruct (Z.ltb_spec (elem_count p) 1) as [|_]; [lia|]. cbn [andb].
  unfold pop_locked. rewrite Z.gtb_ltb.
  destruct (Z.ltb_spec 0 (elem_count p)) as [_|]; [|lia].
  destruct (pop_without_locking_cap_bounds p 1 Hb ltac:(lia)) as (B' & _).
  pose proof (pop_without_locking_fields p 1) as F.
  destruct (pop_without_locking p 1) as [[p' t] r]. cbn [fst] in B'.
  destruct F as (-> & _ & E & M & X & _ & _ & C).
  rewrite min_spec in *. rewrite Z.min_l in * by lia.
  rewrite SIZE_MAX_eq in *.
  rewrite wrap_small in E, C by (rewrite SIZE_MOD_eq; lia).
  exists t, p'. split; [reflexivity|]. split; [|exact E].
  unfold drain_inv. rewrite M, X, E, SIZE_MAX_eq.
  split; [exact B'|].
  unfold resized_capacity in C.
  cbn [max_cap elem_count min_cap capacity set_elem_count] in C.
  rewrite Hx, Hm in C.
  pose proof (is_pow2_pos _ Pc) as Hcpos.
  assert (Hhalf : capacity p / 2 < 18446744073709551615)
    by (apply Z.div_lt_upper_bound; lia).
  assert (H4 : 4 <= capacity p -> capacity p = 4 * (capacity p / 4)
                                  /\ capacity p / 2 = 2 * (capacity p / 4)).
  { intros H. pose proof (pow2_div4 _ Pc H) as E4. split; [exact E4|].
    rewrite E4 at 1. replace (4 * (capacity p / 4)) with ((capacity p / 4 * 2) * 2) by lia.
    rewrite Z.div_mul by lia. lia. }
  assert (Hdc : capacity p <> d -> 2 * d <= capacity p).
  { intros Hne. apply pow2_lt_double; [exact Pd | exact Pc | lia]. }
  rewrite Z.geb_leb in C.
  destruct (Z.leb_spec (elem_count p - 1) (capacity p / 4)) as [Hq4 | Hq4].
  - destruct (Z.leb_spec 18446744073709551615 (capacity p / 2)); [lia|].
    destruct (Z.eq_dec (capacity p) d) as [Hcd | Hcd].
    + (* already at the minimum: a smaller size is refused *)
      assert (capacity p / 2 < d) by (apply Z.div_lt_upper_bound; lia).
      destruct (Z.leb_spec (capacity p / 2) (elem_count p - 1));
        destruct (Z.ltb_spec (capacity p / 2) d); cbn [orb] in C; try lia;
        rewrite C; (split; [exact Pc|]); repeat split; lia.
    + destruct (H4 ltac:(lia)) as (E4 & E2).
      destruct (Z.leb_spec (capacity p / 2) (elem_count p - 1)); [lia|].
      destruct (Z.ltb_spec (capacity p / 2) d); [lia|]. cbn [orb] in C.
      rewrite C. split; [apply is_pow2_half; [exact Pc | lia]|].
      repeat split; lia.
  - rewrite C. split; [exact Pc|].
    pose proof (Z.mul_div_le (capacity p) 4 ltac:(lia)).
    pose proof (Z.mod_pos_bound (capacity p) 4 ltac:(lia)).
    pose proof (Z.div_mod (capacity p) 4 ltac:(lia)).
    repeat split; lia.
Qed.

Lemma drain_one_by_one d n : forall p,
  valid_build d -> drain_inv d p -> elem_count p = Z.of_nat n ->
  exists p' out,
    session d p (repeat (Pop 1) n) = Some (p', out)
    /\ drain_inv d p' /\ elem_count p' = 0.
Proof.
  induction n as [|n IH]; intros p Hd Hi He.
  - exists p, []. split; [reflexivity|]. split; [exact Hi | exact He].
  - destruct (pop_one_drain_inv d p Hd Hi ltac:(lia)) as (t & p1 & R & Hi1 & E1).
    destruct (IH p1 Hd Hi1 ltac:(lia)) as (p' & out & S' & Hi' & E').
    exists p', (t ++ out). cbn [repeat session]. rewrite R, S'.
    split; [reflexivity|]. split; [exact Hi' | exact E'].
Qed.

Lemma push_into_fresh_unbounded d es elems N :
  valid_build d -> 0 < N <= 2 ^ 63 ->
  exists p1,
    pipe_push (S (Z.to_nat N)) (pipe_new d es 0) elems N [] = PushReturned p1 []
    /\ drain_inv d p1 /\ elem_count p1 = N.
Proof.
  intros Hd HN. destruct (valid_build_pow2 d Hd) as (Pd & Hd2).
  pose proof (pipe_new_cap_bounds d es 0 Hd ltac:(unfold size_t; rewrite SIZE_MOD_eq; lia)) as Hb.
  destruct (pipe_new_fields d es 0) as (_ & E0 & C0 & M0 & X0 & _ & R0).
  change (0 =? 0) with true in X0. cbv iota in X0.
  destruct (Z.to_nat N) as [|n] eqn:En; [lia|].
  cbn [pipe_push]. destruct (Z.eqb_spec N 0) as [|_]; [lia|].
  rewrite wait_just_popped_nil. unfold push_waits. rewrite E0, X0.
  change (0 =? SIZE_MAX) with false. cbn [andb].
  unfold push_locked. rewrite R0, E0. change (1 =? 0) with false. cbv iota.
  rewrite Z.sub_0_r, (wrap_small SIZE_MAX) by (rewrite SIZE_MAX_eq, SIZE_MOD_eq; lia).
  rewrite min_spec, Z.min_l by (rewrite SIZE_MAX_eq; lia).
  rewrite Z.sub_diag. change (wrap 0) with 0. change (0 =? 0) with true. cbv iota.
  eexists. split; [reflexivity|].
  destruct (push_without_locking_cap_bounds (pipe_new d es 0) elems N Hb)
    as (B1 & E1); [lia | rewrite E0, X0, SIZE_MAX_eq; lia |].
  rewrite E0 in E1. split; [|lia].
  destruct (push_without_locking_fields (pipe_new d es 0) elems N)
    as (_ & _ & M1 & X1 & _ & _ & C1).
  unfold drain_inv. rewrite M1, X1, M0, X0, E1.
  split; [exact B1|].
  rewrite E0, C0, Z.add_0_l in C1.
  rewrite wrap_small in C1 by (rewrite SIZE_MOD_eq; lia).
  unfold resized_capacity in C1. rewrite X0, E0, M0, C0 in C1.
  pose proof (next_pow2_ge N ltac:(lia)).
  rewrite Z.gtb_ltb, Z.geb_leb in C1.
  destruct (Z.ltb_spec d N).
  - pose proof (next_pow2_lt_double N ltac:(lia)).
    pose proof (next_pow2_le_top N ltac:(lia)).
    rewrite SIZE_MAX_eq in C1.
    destruct (Z.leb_spec 18446744073709551615 (next_pow2 N)); [lia|].
    destruct (Z.leb_spec (next_pow2 N) 0); [lia|].
    destruct (Z.ltb_spec (next_pow2 N) d); [lia|]. cbn [orb] in C1.
    rewrite C1. split; [apply next_pow2_is_pow2; lia|].
    repeat split. right. lia.
  - rewrite C1. split; [exact Pd|]. repeat split. now left.
Qed.

(** C7 (as amended).  After pushing N elements into a fresh unbounded pipe
    and popping them one at a time, the capacity is back at min_cap.  (Each
    pop halves the capacity at most once, so popping all N in one call
    leaves it larger.) *)
Theorem capacity_returns_to_min_cap d es elems N :
  valid_build d -> 0 < es -> 0 <= N -> N * es < 2 ^ 63 ->
  Z.of_nat (length elems) = N * es ->
  exists p out,
    session d (pipe_new d es 0) (Push elems N :: repeat (Pop 1) (Z.to_nat N))
    = Some (p, out)
    /\ elem_count p = 0 /\ capacity p = min_cap p /\ min_cap p = d.
Proof.
  intros Hd Hes HN Hbytes _.
  assert (HN63 : N < 2 ^ 63) by nia.
  assert (Hfinal : forall p, drain_inv d p -> elem_count p = 0 ->
                             capacity p = min_cap p /\ min_cap p = d).
  { intros p (Hb & _ & Hm & _ & Hq) E. rewrite E in Hq. rewrite Hm.
    destruct Hq as [Hq | Hq]; [split; [exact Hq | reflexivity]|].
    unfold cap_bounds in Hb. lia. }
  destruct (Z.eq_dec N 0) as [-> | HN0].
  - exists (pipe_new d es 0), []. cbn [Z.to_nat repeat session pipe_push].
    split; [reflexivity|]. repeat split.
  - destruct (push_into_fresh_unbounded d es elems N Hd ltac:(lia))
      as (p1 & R & Hi1 & E1).
    destruct (drain_one_by_one d (Z.to_nat N) p1 Hd Hi1 ltac:(lia))
      as (p' & out & S' & Hi' & E').
    exists p', out. cbn [session]. rewrite R, S'.
    split; [reflexivity|]. split; [exact E'|]. apply Hfinal; assumption.
Qed.

(* Scenario S3: a thousand bytes pushed, then popped one by one. *)
Lemma capacity_returns_to_min_cap_witness :
  exists p out,
    session RELEASE_MINCAP (pipe_new RELEASE_MINCAP 1 0)
            (Push (repeat x41 1000) 1000 :: repeat (Pop 1) (Z.to_nat 1000))
    = Some (p, out)
    /\ elem_count p = 0 /\ capacity p = min_cap p /\ min_cap p = RELEASE_MINCAP.
Proof.
  apply capacity_returns_to_min_cap;
    [right; reflexivity | lia | lia | lia | rewrite repeat_length; lia].
Defined.

(* The capacity does not always return to min_cap: a hundred elements pushed and popped in one call
    leave the capacity at 64, while min_cap is 32. *)
Lemma bulk_pop_halves_once :
  exists p out,
    session RELEASE_MINCAP (pipe_new RELEASE_MINCAP 1 0)
            [Push (repeat x41 100) 100; Pop 100]
    = Some (p, out)
    /\ elem_count p = 0 /\ capacity p <> min_cap p.
Proof.
  eexists. eexists. split; [vm_compute; reflexivity|].
  split; [reflexivity|]. cbn. discriminate.
Qed.

(** ** Memory blocks, byte by byte *)

Lemma length_store m off src : length (store m off src) = length m.
Proof.
  unfold store. rewrite length_firstn, !length_app, length_firstn, length_skipn. lia.
Qed.

Lemma length_load m off n :
  0 <= off -> 0 <= n -> off + n <= Z.of_nat (length m) ->
  length (load m off n) = Z.to_nat n.
Proof.
  intros. unfold load. rewrite length_firstn, length_skipn. lia.
Qed.

Lemma nth_error_load m off n i :
  nth_error (load m off n) i =
  if (i <? Z.to_nat n)%nat then nth_error m (Z.to_nat off + i) else None.
Proof. unfold load. now rewrite nth_error_firstn, nth_error_skipn. Qed.

Lemma nth_error_store m off src i :
  (Z.to_nat off + length src <= length m)%nat ->
  nth_error (store m off src) i =
  if (i <? Z.to_nat off)%nat then nth_error m i
  else if (i <? Z.to_nat off + length src)%nat
       then nth_error src (i - Z.to_nat off)
       else nth_error m i.
Proof.
  intros H. unfold store. rewrite nth_error_firstn.
  destruct (Nat.ltb_spec i (length m)) as [Hi | Hi].
  - rewrite nth_error_app, length_firstn.
    replace (Init.Nat.min (Z.to_nat off) (length m)) with (Z.to_nat off) by lia.
    destruct (Nat.ltb_spec i (Z.to_nat off)).
    + rewrite nth_error_firstn.
      destruct (Nat.ltb_spec i (Z.to_nat off)); [reflexivity | lia].
    + rewrite nth_error_app.
      destruct (Nat.ltb_spec (i - Z.to_nat off) (length src));
        destruct (Nat.ltb_spec i (Z.to_nat off + length src)); try lia.
      * reflexivity.
      * rewrite nth_error_skipn. f_equal. lia.
  - destruct (Nat.ltb_spec i (Z.to_nat off)); [lia|].
    destruct (Nat.ltb_spec i (Z.to_nat off + length src)); [lia|].
    symmetry. apply nth_error_None. lia.
Qed.

Lemma nth_error_take n l i :
  nth_error (take n l) i = if (i <? Z.to_nat n)%nat then nth_error l i else None.
Proof. unfold take. apply nth_error_firstn. Qed.

Lemma nth_error_drop n l i : nth_error (drop n l) i = nth_error l (Z.to_nat n + i).
Proof. unfold drop. apply nth_error_skipn. Qed.

Lemma length_take n l :
  0 <= n <= Z.of_nat (length l) -> length (take n l) = Z.to_nat n.
Proof. intros. unfold take. rewrite length_firstn. lia. Qed.

Lemma length_drop n l : length (drop n l) = (length l - Z.to_nat n)%nat.
Proof. unfold drop. apply length_skipn. Qed.

Lemma nth_error_malloc n i :
  nth_error (malloc n) i = if (i <? Z.to_nat n)%nat then Some x00 else None.
Proof.
  unfold malloc. destruct (Nat.ltb_spec i (Z.to_nat n)).
  - now apply nth_error_repeat.
  - apply nth_error_None. rewrite repeat_length. lia.
Qed.

Lemma length_malloc n : length (malloc n) = Z.to_nat n.
Proof. unfold malloc. apply repeat_length. Qed.

(* The reading of a list beyond its end. *)
Lemma nth_error_beyond (l : list byte) i : (length l <= i)%nat -> nth_error l i = None.
Proof. apply nth_error_None. Qed.

(** ** Order of the bytes below a full pipe *)

Lemma layout_ok_not_full p : layout_ok p -> elem_count p < capacity p.
Proof.
  intros (Hes & Hec & Hbe & _ & _ & Hb & He & Hw).
  unfold wraps_around in Hw. rewrite Z.gtb_ltb in Hw.
  destruct (Z.ltb_spec (end_ p) (begin p)); nia.
Qed.

Lemma length_contents p :
  layout_ok p -> Z.of_nat (length (contents p)) = elem_size p * elem_count p.
Proof.
  intros (Hes & Hec & Hbe & _ & (m & Hm & Hl) & Hb & He & Hw).
  unfold contents, bytes. rewrite Hm.
  destruct (wraps_around p) eqn:W; unfold wraps_around in W;
    rewrite Z.gtb_ltb in W;
    [apply Z.ltb_lt in W | apply Z.ltb_ge in W].
  - rewrite length_app, !length_load by lia. lia.
  - rewrite length_load by lia. lia.
Qed.

Lemma push_without_locking_copy_in p elems count :
  push_without_locking p elems count =
  copy_in (if wrap (elem_count p + count) >? capacity p
           then resize_buffer p (next_pow2 (wrap (elem_count p + count)))
           else p) elems count.
Proof.
  unfold push_without_locking, copy_in. cbv zeta.
  destruct (wrap (elem_count p + count) >? capacity p); [|reflexivity].
  destruct (resize_buffer_fields p (next_pow2 (wrap (elem_count p + count))))
    as (-> & _). reflexivity.
Qed.

(* Decides the comparisons on positions and closes the goal on one byte. *)
Ltac bytewise_cases :=
  repeat match goal with
  | |- context [(?a <? ?b)%nat] => destruct (Nat.ltb_spec a b)
  end;
  try lia; try reflexivity;
  try (f_equal; lia);
  try (symmetry; apply nth_error_beyond; lia);
  try (apply nth_error_beyond; lia).

Ltac length_side :=
  rewrite ?length_store, ?length_drop, ?length_malloc;
  try lia;
  repeat (rewrite length_take by (rewrite ?length_drop; lia));
  repeat (rewrite length_load by (rewrite ?length_store, ?length_malloc; lia));
  lia.

(* Compares two lists of bytes position by position. *)
Ltac bytewise :=
  apply nth_error_ext; intros ?i;
  repeat (progress (
    rewrite ?nth_error_app, ?length_app, ?nth_error_load, ?nth_error_take,
            ?nth_error_drop, ?nth_error_malloc, ?length_store, ?length_drop;
    repeat (rewrite length_load by length_side);
    repeat (rewrite length_take by length_side);
    repeat (rewrite nth_error_store by length_side)));
  bytewise_cases.

Lemma copy_in_contents p elems k :
  layout_ok p -> 0 <= k -> Z.of_nat (length elems) = k * elem_size p ->
  elem_count p + k < capacity p ->
  layout_ok (copy_in p elems k)
  /\ contents (copy_in p elems k) = contents p ++ elems
  /\ capacity (copy_in p elems k) = capacity p
  /\ elem_count (copy_in p elems k) = elem_count p + k.
Proof.
  intros (Hes & Hec & Hbe & Hbm & (m & Hm & Hl) & Hb & He & Hw) Hk Hlen Hfit.
  assert (Hroom : elem_size p * elem_count p + k * elem_size p < bufend p) by nia.
  assert (Hkb : 0 <= k * elem_size p) by nia.
  assert (Hcnt : wrap (elem_count p + k) = elem_count p + k).
  { apply wrap_small. split; [lia|]. nia. }
  unfold copy_in, contents, layout_ok, bytes. cbv zeta. rewrite Hm.
  rewrite (wrap_small (k * elem_size p)) by lia.
  remember (k * elem_size p) as b eqn:Eb.
  unfold wraps_around in *. rewrite Z.gtb_ltb in *.
  destruct (Z.ltb_spec (end_ p) (begin p)) as [W | W]; cbn [negb].
  - (* the layout wraps: one run *)
    cbn [elem_size elem_count capacity bufend begin end_ buffer option_map
         set_elem_count set_end set_buffer].
    unfold wrap_if_at_end. rewrite !Z.gtb_ltb.
    destruct (Z.eqb_spec (end_ p + b) (bufend p)); [lia|].
    destruct (Z.ltb_spec (end_ p + b) (begin p)); [|lia].
    rewrite Hcnt.
    split; [|split; [|split; reflexivity]].
    + repeat split; try lia. exists (store m (end_ p) (take b elems)).
      split; [reflexivity|]. now rewrite length_store.
    + bytewise.
  - (* the layout does not wrap: up to two runs *)
    rewrite (wrap_small (bufend p - end_ p)) by lia.
    rewrite min_spec.
    cbn [elem_size elem_count capacity bufend begin end_ buffer option_map
         set_elem_count set_end set_buffer].
    rewrite Hcnt. unfold wrap_if_at_end. rewrite !Z.gtb_ltb.
    destruct (Z.lt_total b (bufend p - end_ p)) as [Hlt | [Heq | Hgt]].
    + (* the new bytes end before the end of the block *)
      rewrite Z.min_l by lia. rewrite Z.sub_diag. change (wrap 0) with 0.
      destruct (Z.eqb_spec (end_ p + b) (bufend p)); [lia|].
      rewrite Z.add_0_r.
      destruct (Z.eqb_spec (end_ p + b) (bufend p)); [lia|].
      destruct (Z.ltb_spec (end_ p + b) (begin p)); [lia|].
      split; [|split; [|split; reflexivity]].
      * repeat split; try lia. eexists. split; [reflexivity|].
        now rewrite !length_store.
      * bytewise.
    + (* the new bytes end at the end of the block *)
      rewrite Z.min_l by lia. rewrite Z.sub_diag. change (wrap 0) with 0.
      destruct (Z.eqb_spec (end_ p + b) (bufend p)); [|lia].
      change (0 + 0) with 0.
      destruct (Z.eqb_spec 0 (bufend p)); [lia|].
      destruct (Z.ltb_spec 0 (begin p)); [|lia].
      split; [|split; [|split; reflexivity]].
      * repeat split; try lia. eexists. split; [reflexivity|].
        now rewrite !length_store.
      * bytewise.
    + (* the new bytes go on at the start of the block *)
      rewrite Z.min_r by lia.
      rewrite (wrap_small (b - (bufend p - end_ p))) by lia.
      replace (end_ p + (bufend p - end_ p)) with (bufend p) by lia.
      rewrite Z.eqb_refl. rewrite Z.add_0_l.
      destruct (Z.eqb_spec (b - (bufend p - end_ p)) (bufend p)); [lia|].
      destruct (Z.ltb_spec (b - (bufend p - end_ p)) (begin p)); [|lia].
      split; [|split; [|split; reflexivity]].
      * repeat split; try lia. eexists. split; [reflexivity|].
        now rewrite !length_store.
      * bytewise.
Qed.

Lemma resize_buffer_contents p n :
  layout_ok p -> elem_size p * resized_capacity p n < SIZE_MOD ->
  layout_ok (resize_buffer p n)
  /\ contents (resize_buffer p n) = contents p.
Proof.
  intros L Hsz. pose proof L as (Hes & Hec & Hbe & Hbm & (m & Hm & Hl) & Hb & He & Hw).
  unfold resize_buffer, resized_capacity in *. cbv zeta in *.
  set (ns := if n >=? max_cap p then max_cap p else n) in *.
  destruct ((ns <=? elem_count p) || (ns <? min_cap p)) eqn:Hc; [split; [exact L | reflexivity]|].
  apply orb_false_iff in Hc. destruct Hc as (Hc1 & _).
  apply Z.leb_gt in Hc1.
  assert (Hnew : elem_size p * elem_count p < elem_size p * ns) by nia.
  rewrite (wrap_small (ns * elem_size p)) by (split; [nia | lia]).
  unfold copy_pipe_into_new_buf, bytes. rewrite Hm.
  unfold wraps_around in *. rewrite Z.gtb_ltb in *.
  destruct (Z.ltb_spec (end_ p) (begin p)) as [W | W].
  - rewrite (wrap_small (bufend p - begin p)), (wrap_small (end_ p - 0)) by lia.
    unfold layout_ok, contents, fix_bufend, wraps_around, bytes.
    cbn [elem_size elem_count capacity bufend begin end_ buffer
         set_capacity set_begin set_buffer set_end set_bufend].
    rewrite (wrap_small (elem_size p * ns)) by (split; [nia | lia]).
    rewrite Hm, !Z.gtb_ltb.
    destruct (Z.ltb_spec (bufend p - begin p + (end_ p - 0)) 0); [lia|].
    destruct (Z.ltb_spec (end_ p) (begin p)); [|lia].
    split.
    + repeat split; try lia. eexists. split; [reflexivity|].
      rewrite !length_store, length_malloc. lia.
    + bytewise.
  - rewrite (wrap_small (end_ p - begin p)) by lia.
    unfold layout_ok, contents, fix_bufend, wraps_around, bytes.
    cbn [elem_size elem_count capacity bufend begin end_ buffer
         set_capacity set_begin set_buffer set_end set_bufend].
    rewrite (wrap_small (elem_size p * ns)) by (split; [nia | lia]).
    rewrite Hm, !Z.gtb_ltb.
    destruct (Z.ltb_spec (end_ p - begin p) 0); [lia|].
    destruct (Z.ltb_spec (end_ p) (begin p)); [lia|].
    split.
    + repeat split; try lia. eexists. split; [reflexivity|].
      rewrite !length_store, length_malloc. lia.
    + bytewise.
Qed.

Lemma pop_without_locking_copy_out p count :
  pop_without_locking p count =
  let '(q, target, ret) := copy_out p count in
  (if elem_count q <=? capacity q / 4
   then resize_buffer q (capacity q / 2) else q,
   target, ret).
Proof.
  unfold pop_without_locking, copy_out. cbv zeta.
  match goal with
  | |- context [if ?c then (?a, ?b) else (?a', ?b')] => destruct c
  end; reflexivity.
Qed.

Lemma copy_out_contents p n :
  layout_ok p -> 0 <= n ->
  let '(q, target, ret) := copy_out p n in
  ret = Z.min n (elem_count p)
  /\ layout_ok q
  /\ target = take (ret * elem_size p) (contents p)
  /\ contents q = drop (ret * elem_size p) (contents p)
  /\ elem_count q = elem_count p - ret
  /\ capacity q = capacity p /\ elem_size q = elem_size p
  /\ min_cap q = min_cap p /\ max_cap q = max_cap p.
Proof.
  intros L Hn. pose proof (layout_ok_not_full p L) as Hnf.
  destruct L as (Hes & Hec & Hbe & Hbm & (m & Hm & Hl) & Hb & He & Hw).
  assert (Hroom : elem_size p * elem_count p < bufend p) by nia.
  assert (Hcap : capacity p < SIZE_MOD) by nia.
  unfold copy_out. cbv zeta. rewrite min_spec.
  set (r := Z.min n (elem_count p)).
  assert (Hr : 0 <= r <= elem_count p) by lia.
  remember (r * elem_size p) as b eqn:Eb.
  assert (Hb0 : 0 <= b <= elem_size p * elem_count p) by nia.
  rewrite (wrap_small b) by lia.
  rewrite (wrap_small (elem_count p - r)) by lia.
  unfold bytes, contents, layout_ok, wraps_around in *.
  cbn [elem_size elem_count capacity bufend begin end_ buffer min_cap max_cap
       set_elem_count set_begin].
  rewrite Hm. rewrite (wrap_small (bufend p - begin p)) by lia.
  rewrite min_spec. unfold wrap_if_at_end. rewrite !Z.gtb_ltb in *.
  destruct (Z.ltb_spec (end_ p) (begin p)) as [W | W].
  - (* the layout wraps *)
    destruct (Z.lt_total b (bufend p - begin p)) as [Hlt | [Heq | Hgt]].
    + rewrite Z.min_l by lia. rewrite Z.sub_diag. change (wrap 0) with 0.
      change (0 <? 0) with false. cbv iota.
      destruct (Z.eqb_spec (begin p + b) (bufend p)); [lia|].
      cbn [elem_size elem_count capacity bufend begin end_ buffer min_cap max_cap
           set_elem_count set_begin].
      rewrite ?Z.gtb_ltb.
      unfold bytes; cbn [buffer set_begin set_elem_count]; rewrite ?Hm, <- ?Eb.
      destruct (Z.ltb_spec (end_ p) (begin p + b)); [|lia].
      repeat split; try lia; try (exists m; split; [reflexivity | assumption]); bytewise.
    + rewrite Z.min_l by lia. rewrite Z.sub_diag. change (wrap 0) with 0.
      change (0 <? 0) with false. cbv iota.
      destruct (Z.eqb_spec (begin p + b) (bufend p)); [|lia].
      cbn [elem_size elem_count capacity bufend begin end_ buffer min_cap max_cap
           set_elem_count set_begin].
      rewrite ?Z.gtb_ltb.
      unfold bytes; cbn [buffer set_begin set_elem_count]; rewrite ?Hm, <- ?Eb.
      destruct (Z.ltb_spec (end_ p) 0); [lia|].
      repeat split; try lia; try (exists m; split; [reflexivity | assumption]); bytewise.
    + rewrite Z.min_r by lia.
      rewrite (wrap_small (b - (bufend p - begin p))) by lia.
      destruct (Z.ltb_spec 0 (b - (bufend p - begin p))); [|lia].
      replace (begin p + (bufend p - begin p)) with (bufend p) by lia.
      rewrite Z.eqb_refl, Z.add_0_l.
      destruct (Z.eqb_spec (b - (bufend p - begin p)) (bufend p)); [lia|].
      cbn [elem_size elem_count capacity bufend begin end_ buffer min_cap max_cap
           set_elem_count set_begin].
      rewrite ?Z.gtb_ltb.
      unfold bytes; cbn [buffer set_begin set_elem_count]; rewrite ?Hm, <- ?Eb.
      destruct (Z.ltb_spec (end_ p) (b - (bufend p - begin p))); [lia|].
      repeat split; try lia; try (exists m; split; [reflexivity | assumption]); bytewise.
  - (* the layout does not wrap *)
    rewrite Z.min_l by lia. rewrite Z.sub_diag. change (wrap 0) with 0.
    change (0 <? 0) with false. cbv iota.
    destruct (Z.eqb_spec (begin p + b) (bufend p)); [lia|].
    cbn [elem_size elem_count capacity bufend begin end_ buffer min_cap max_cap
         set_elem_count set_begin].
    rewrite ?Z.gtb_ltb.
      unfold bytes; cbn [buffer set_begin set_elem_count]; rewrite ?Hm, <- ?Eb.
    destruct (Z.ltb_spec (end_ p) (begin p + b)); [lia|].
    repeat split; try lia; try (exists m; split; [reflexivity | assumption]); bytewise.
Qed.

Lemma push_without_locking_contents p elems k :
  layout_ok p -> 0 <= k -> Z.of_nat (length elems) = k * elem_size p ->
  elem_count p + k < SIZE_MOD ->
  let p' := push_without_locking p elems k in
  elem_count p + k < capacity p' -> elem_size p * capacity p' < SIZE_MOD ->
  layout_ok p' /\ contents p' = contents p ++ elems.
Proof.
  intros L Hk Hlen Hsz. cbv zeta.
  destruct (push_without_locking_fields p elems k) as (_ & _ & _ & _ & _ & _ & C).
  rewrite C. clear C. rewrite push_without_locking_copy_in.
  assert (Hec : 0 <= elem_count p) by apply L.
  rewrite (wrap_small (elem_count p + k)) by lia.
  destruct (elem_count p + k >? capacity p).
  - intros Hfit Hmem.
    destruct (resize_buffer_contents p (next_pow2 (elem_count p + k)) L Hmem)
      as (Lq & Cq).
    destruct (resize_buffer_fields p (next_pow2 (elem_count p + k)))
      as (Es & Ec & _ & _ & _ & _ & Cap).
    destruct (copy_in_contents (resize_buffer p (next_pow2 (elem_count p + k)))
                elems k Lq Hk) as (L' & C' & _); [congruence | lia |].
    split; [exact L' | congruence].
  - intros Hfit _.
    destruct (copy_in_contents p elems k L Hk Hlen Hfit) as (L' & C' & _).
    split; assumption.
Qed.

Lemma pop_without_locking_contents p n :
  layout_ok p -> 0 <= n ->
  let '(p', target, ret) := pop_without_locking p n in
  ret = Z.min n (elem_count p)
  /\ layout_ok p'
  /\ target = take (ret * elem_size p) (contents p)
  /\ contents p' = drop (ret * elem_size p) (contents p).
Proof.
  intros L Hn. rewrite pop_without_locking_copy_out.
  pose proof (copy_out_contents p n L Hn) as F.
  destruct (copy_out p n) as [[q t] r].
  destruct F as (-> & Lq & -> & Cq & Eq & Capq & Esq & _).
  split; [reflexivity|]. split; [|split; [reflexivity|]].
  - destruct (elem_count q <=? capacity q / 4); [|exact Lq].
    apply resize_buffer_contents; [exact Lq|].
    pose proof (layout_ok_not_full q Lq).
    destruct Lq as (Hes & Hec & Hbe & Hbm & _).
    unfold resized_capacity. cbv zeta.
    destruct (_ || _); [lia|].
    assert (capacity q / 2 <= capacity q)
      by (apply Z.div_le_upper_bound; lia).
    rewrite Z.geb_leb. destruct (Z.leb_spec (max_cap q) (capacity q / 2)); nia.
  - destruct (elem_count q <=? capacity q / 4); [|exact Cq].
    rewrite <- Cq. apply resize_buffer_contents; [exact Lq|].
    pose proof (layout_ok_not_full q Lq).
    destruct Lq as (Hes & Hec & Hbe & Hbm & _).
    unfold resized_capacity. cbv zeta.
    destruct (_ || _); [lia|].
    assert (capacity q / 2 <= capacity q)
      by (apply Z.div_le_upper_bound; lia).
    rewrite Z.geb_leb. destruct (Z.leb_spec (max_cap q) (capacity q / 2)); nia.
Qed.

(* With a single thread, a pipe_push that returns has stored all its
   elements in one critical section. *)
Lemma pipe_push_single p elems count p' s' :
  size_t count -> cap_bounds p -> 0 < consumer_refcount p ->
  pipe_push (S (Z.to_nat count)) p elems count [] = PushReturned p' s' ->
  (count = 0 /\ p' = p)
  \/ (0 < count /\ elem_count p + count <= max_cap p
      /\ p' = push_without_locking p elems count).
Proof.
  intros Hc Hb Hcons. pose proof Hb as (He & Hm & Hcap & Hx).
  unfold size_t in Hc. rewrite SIZE_MAX_eq, SIZE_MOD_eq in *.
  cbn [pipe_push]. destruct (Z.eqb_spec count 0) as [-> | Hc0].
  - intros [= <- <-]. now left.
  - rewrite wait_just_popped_nil. destruct (push_waits (max_cap p) p) eqn:W;
      [discriminate|].
    unfold push_locked. destruct (Z.eqb_spec (consumer_refcount p) 0); [lia|].
    rewrite (wrap_small (max_cap p - elem_count p)) by (rewrite SIZE_MOD_eq; lia).
    rewrite min_spec.
    set (k := Z.min count (max_cap p - elem_count p)).
    destruct (Z.to_nat count) as [|fuel] eqn:En; [lia|].
    cbn [pipe_push].
    destruct (push_without_locking_fields p elems k) as (_ & E & _ & X & _ & C & _).
    assert (Hwaits : elem_count p <> max_cap p).
    { unfold push_waits in W. zbool; lia. }
    rewrite (wrap_small (count - k)) by (rewrite SIZE_MOD_eq; lia).
    destruct (Z.eqb_spec (count - k) 0) as [Hk | Hk].
    + intros [= <- <-]. right. replace k with count by lia.
      repeat split; lia.
    + rewrite wait_just_popped_nil. unfold push_waits. rewrite X, E, C.
      rewrite wrap_small by (rewrite SIZE_MOD_eq; lia).
      destruct (Z.eqb_spec (elem_count p + k) (max_cap p)); [|lia].
      rewrite Z.gtb_ltb. destruct (Z.ltb_spec 0 (consumer_refcount p)); [|lia].
      discriminate.
Qed.

Lemma pipe_reserve_contents d p count :
  layout_ok p ->
  elem_size p * capacity (pipe_reserve d p count) < SIZE_MOD ->
  layout_ok (pipe_reserve d p count)
  /\ contents (pipe_reserve d p count) = contents p.
Proof.
  intros L. destruct (pipe_reserve_fields d p count) as (_ & _ & _ & _ & _ & _ & ->).
  unfold pipe_reserve. cbv zeta.
  destruct (reserve_count d count <=? elem_count p); [intros _; split; [exact L | reflexivity]|].
  intros Hmem.
  apply (resize_buffer_contents (set_min_cap _ p)); [exact L | exact Hmem].
Qed.

Lemma pipe_new_layout_ok d es limit :
  valid_build d -> 0 < es -> es * d < SIZE_MOD ->
  layout_ok (pipe_new d es limit) /\ contents (pipe_new d es limit) = [].
Proof.
  intros Hd Hes Hsz. destruct (valid_build_pow2 d Hd) as (_ & Hd2).
  unfold pipe_new, fix_bufend, layout_ok, contents, wraps_around, bytes.
  cbn [elem_size elem_count capacity bufend begin end_ buffer set_bufend].
  rewrite (wrap_small (es * d)) by nia.
  change (0 >? 0) with false. cbv iota. split.
  - repeat split; try nia. eexists. split; [reflexivity|].
    rewrite length_malloc. nia.
  - reflexivity.
Qed.

Lemma contents_empty p : layout_ok p -> elem_count p = 0 -> contents p = [].
Proof.
  intros L E. pose proof (length_contents p L) as H. rewrite E in H.
  destruct (contents p); [reflexivity | cbn in H; lia].
Qed.

Lemma session_order d cs : forall p p' out,
  0 <= d -> layout_ok p -> cap_bounds p -> 0 < consumer_refcount p ->
  below_full d p cs -> session d p cs = Some (p', out) ->
  out ++ contents p' = contents p ++ pushed_bytes cs
  /\ layout_ok p'.
Proof.
  induction cs as [|c cs IH]; intros p p' out Hd L B Hcons Hbf Hs.
  - cbn in Hs. injection Hs as <- <-. cbn. rewrite app_nil_r. now split.
  - destruct c as [elems count | count | count]; cbn [session below_full pushed_bytes] in *.
    + (* Push *)
      destruct Hbf as (Hc & Hlen & Hbf).
      destruct (pipe_push _ p elems count []) as [q s| |] eqn:P; try discriminate.
      destruct Hbf as (Hnf & Hmem & Hbf).
      destruct (pipe_push_single p elems count q s Hc B Hcons P)
        as [(-> & ->) | (Hpos & Hfit & ->)].
      * assert (elems = []) as -> by (destruct elems; [reflexivity | cbn in Hlen; lia]).
        apply (IH p p' out); assumption.
      * destruct (push_without_locking_fields p elems count)
          as (Es & Ec & _ & _ & _ & Cr & _).
        unfold size_t in Hc. pose proof B as (_ & _ & _ & Hx).
        rewrite SIZE_MAX_eq in Hx.
        rewrite wrap_small in Ec by (rewrite SIZE_MOD_eq; unfold cap_bounds in B; lia).
        destruct (push_without_locking_contents p elems count L) as (Lq & Cq);
          [lia | exact Hlen | rewrite SIZE_MOD_eq; unfold cap_bounds in B; lia
          | lia | congruence |].
        destruct (push_without_locking_cap_bounds p elems count B) as (Bq & _);
          [lia | lia |].
        destruct (IH _ p' out Hd Lq Bq ltac:(lia) Hbf Hs) as (IH1 & IH2).
        split; [|exact IH2]. rewrite IH1, Cq, app_assoc. reflexivity.
    + (* Pop *)
      destruct Hbf as (Hc & Hbf).
      destruct (pipe_pop p count []) as [r t q s|] eqn:P; try discriminate.
      destruct (session d q cs) as [[p'' out']|] eqn:S'; try discriminate.
      injection Hs as <- <-.
      unfold pipe_pop in P. rewrite wait_just_pushed_nil in P.
      destruct (_ && _); [discriminate|].
      assert (Hn : 0 <= clamp_count p count).
      { unfold clamp_count, size_t, cap_bounds in *. zbool; lia. }
      unfold pop_locked in P.
      destruct (elem_count p >? 0).
      * pose proof (pop_without_locking_contents p (clamp_count p count) L Hn) as F.
        pose proof (pop_without_locking_fields p (clamp_count p count)) as G.
        destruct (pop_without_locking_cap_bounds p (clamp_count p count) B Hn)
          as (Bq & _).
        destruct (pop_without_locking p (clamp_count p count)) as [[q0 t0] r0].
        injection P as <- <- <- <-. cbn [fst] in Bq.
        destruct F as (_ & Lq & -> & Cq). destruct G as (_ & _ & _ & _ & _ & _ & Cr & _).
        destruct (IH _ p'' out' Hd Lq Bq ltac:(lia) Hbf S') as (IH1 & IH2).
        split; [|exact IH2].
        rewrite <- app_assoc, IH1, Cq, app_assoc. unfold take, drop.
        now rewrite firstn_skipn.
      * injection P as <- <- <- <-.
        destruct (IH _ p'' out' Hd L B Hcons Hbf S') as (IH1 & IH2).
        split; [|exact IH2]. exact IH1.
    + (* Reserve *)
      destruct Hbf as (Hc & Hmem & Hbf).
      destruct (pipe_reserve_contents d p count L Hmem) as (Lq & Cq).
      destruct (pipe_reserve_fields d p count) as (_ & _ & _ & _ & Cr & _).
      pose proof (pipe_reserve_cap_bounds d p count Hd ltac:(unfold size_t in Hc; lia) B)
        as Bq.
      destruct (IH _ p' out Hd Lq Bq ltac:(lia) Hbf Hs) as (IH1 & IH2).
      split; [|exact IH2]. rewrite IH1, Cq. reflexivity.
Qed.

(** X6.  Order preservation, where the code has it: in a program with one
    thread that starts from a fresh pipe and never fills the buffer exactly,
    the bytes popped followed by the bytes still buffered are the bytes
    pushed; when the pipe ends empty, the bytes popped are the bytes
    pushed. *)
Theorem order_kept_below_full d es limit cs p out :
  valid_build d -> 0 < es -> es * d < SIZE_MOD -> size_t limit ->
  below_full d (pipe_new d es limit) cs ->
  session d (pipe_new d es limit) cs = Some (p, out) ->
  out ++ contents p = pushed_bytes cs
  /\ (elem_count p = 0 -> out = pushed_bytes cs).
Proof.
  intros Hd Hes Hsz Hl Hbf Hs.
  destruct (valid_build_pow2 d Hd) as (_ & Hd2).
  destruct (pipe_new_layout_ok d es limit Hd Hes Hsz) as (L0 & C0).
  pose proof (pipe_new_cap_bounds d es limit Hd Hl) as B0.
  destruct (session_order d cs _ p out ltac:(lia) L0 B0 ltac:(cbn; lia) Hbf Hs)
    as (H & L).
  rewrite C0 in H. cbn [app] in H. split; [exact H|].
  intros E. rewrite (contents_empty p L E), app_nil_r in H. exact H.
Qed.

(* Scenario S2 with a wrap: the 45 bytes come out in the order they went
   in. *)
Lemma order_kept_below_full_witness :
  exists p out,
    session RELEASE_MINCAP (pipe_new RELEASE_MINCAP 1 0)
            [Push (repeat x41 30) 30; Pop 20; Push (repeat x42 15) 15; Pop 25]
    = Some (p, out)
    /\ out = repeat x41 30 ++ repeat x42 15.
Proof.
  destruct (session _ _ _) as [[p out]|] eqn:E; [|vm_compute in E; discriminate E].
  exists p, out. split; [reflexivity|].
  pose proof (fun Hbf =>
    order_kept_below_full RELEASE_MINCAP 1 0 _ p out (or_intror eq_refl)
      ltac:(lia) ltac:(rewrite SIZE_MOD_eq; cbv; reflexivity)
      ltac:(unfold size_t; rewrite SIZE_MOD_eq; lia) Hbf E) as T.
  destruct T as (_ & T).
  - vm_compute. repeat split; congruence.
  - apply T. vm_compute in E. injection E as <- _. reflexivity.
Defined.

(** X7.  The cursor invariant, where the code has it: in a program with one
    thread that starts from a fresh pipe and never fills the buffer exactly,
    neither cursor is at the one-past-end offset, and begin = end exactly
    when the pipe is empty. *)
Theorem cursors_below_full d es limit cs p out :
  valid_build d -> 0 < es -> es * d < SIZE_MOD -> size_t limit ->
  below_full d (pipe_new d es limit) cs ->
  session d (pipe_new d es limit) cs = Some (p, out) ->
  begin p <> bufend p /\ end_ p <> bufend p
  /\ (begin p = end_ p <-> elem_count p = 0).
Proof.
  intros Hd Hes Hsz Hl Hbf Hs.
  destruct (valid_build_pow2 d Hd) as (_ & Hd2).
  destruct (pipe_new_layout_ok d es limit Hd Hes Hsz) as (L0 & _).
  pose proof (pipe_new_cap_bounds d es limit Hd Hl) as B0.
  destruct (session_order d cs _ p out ltac:(lia) L0 B0 ltac:(cbn; lia) Hbf Hs)
    as (_ & (He & Hec & _ & _ & _ & Hb & Hen & Hw)).
  unfold wraps_around in Hw. rewrite Z.gtb_ltb in Hw.
  split; [lia|]. split; [lia|].
  destruct (Z.ltb_spec (end_ p) (begin p)); split; intros; nia.
Qed.

(* Growth, a shrink and growth again with elements of four bytes. *)
Lemma cursors_below_full_witness :
  match session DEBUG_MINCAP (pipe_new DEBUG_MINCAP 4 0)
          [Push (repeat x41 12) 3; Pop 2; Push (repeat x42 8) 2; Pop 3] with
  | Some (p, _) =>
      begin p <> bufend p /\ end_ p <> bufend p
      /\ (begin p = end_ p <-> elem_count p = 0)
  | None => False
  end.
Proof.
  destruct (session _ _ _) as [[p out]|] eqn:E; [|vm_compute in E; discriminate E].
  refine (cursors_below_full DEBUG_MINCAP 4 0 _ p out
            (or_introl eq_refl) _ _ _ _ E).
  - lia.
  - rewrite SIZE_MOD_eq. cbv. reflexivity.
  - unfold size_t. rewrite SIZE_MOD_eq. lia.
  - vm_compute. repeat split; congruence.
Defined.

(** ** C1 and C6: a full pipe *)

(* The defect behind C1 and C6.  A push that makes elem_count equal to the
   capacity wraps [end_] onto [begin]; wraps_around then takes the pipe for
   an empty one, and resize_buffer copies nothing into the new block. *)
Lemma full_pipe_is_copied_as_empty p buf :
  begin p = end_ p ->
  copy_pipe_into_new_buf p buf = (store buf 0 [], 0).
Proof.
  intros H. unfold copy_pipe_into_new_buf, wraps_around. rewrite H.
  rewrite Z.gtb_ltb, Z.ltb_irrefl, Z.sub_diag. reflexivity.
Qed.

(** C1 (code at the failing input).  Without DEBUG, 32 bytes 'A' are pushed
    into a fresh pipe, then one byte 'B', then 33 bytes are popped: the
    first byte popped is 'B', and the bytes popped are not the bytes
    pushed. *)
Theorem order_lost_when_full_pipe_grows :
  exists p out,
    session RELEASE_MINCAP (pipe_new RELEASE_MINCAP 1 0)
            [Push (repeat x41 32) 32; Push [x42] 1; Pop 33]
    = Some (p, out)
    /\ length out = 33%nat
    /\ hd x00 out = x42
    /\ out <> repeat x41 32 ++ [x42].
Proof.
  eexists. eexists. split; [vm_compute; reflexivity|].
  split; [reflexivity|]. split; [reflexivity|]. cbn. discriminate.
Qed.

(* The same in a DEBUG build, where the capacity starts at 2. *)
Lemma order_lost_when_full_pipe_grows_debug :
  exists p out,
    session DEBUG_MINCAP (pipe_new DEBUG_MINCAP 1 0)
            [Push [x41; x42] 2; Push [x43] 1; Pop 3]
    = Some (p, out)
    /\ hd x00 out = x43.
Proof.
  eexists. eexists. split; [vm_compute; reflexivity|]. reflexivity.
Qed.

(** C6 (code at the failing input).  Without DEBUG, after 32 bytes are pushed
    into a fresh pipe both cursors are at offset 0 although the pipe holds 32
    elements, and the assertions of check_invariants no longer hold. *)
Theorem full_pipe_has_equal_cursors :
  exists p,
    session RELEASE_MINCAP (pipe_new RELEASE_MINCAP 1 0) [Push (repeat x41 32) 32]
    = Some (p, [])
    /\ begin p = end_ p
    /\ elem_count p = 32
    /\ check_invariants RELEASE_MINCAP p = false.
Proof.
  eexists. split; [vm_compute; reflexivity|]. repeat split.
Qed.

(* Further on, the same history leaves [end_] at the one-past-end offset. *)
Lemma end_cursor_left_at_bufend :
  exists p out,
    session RELEASE_MINCAP (pipe_new RELEASE_MINCAP 1 0)
            [Push (repeat x41 32) 32; Push [x42] 1; Pop 33]
    = Some (p, out)
    /\ end_ p = bufend p.
Proof.
  eexists. eexists. split; [vm_compute; reflexivity|]. reflexivity.
Qed.

(** ** next_pow2 *)

(** X1.  For 0 < n <= 2^63, next_pow2(n) is the least power of two that is
    not below n. *)
Theorem next_pow2_least n :
  0 < n <= 2 ^ 63 ->
  is_pow2 (next_pow2 n) /\ n <= next_pow2 n
  /\ (forall m, is_pow2 m -> n <= m -> next_pow2 n <= m).
Proof.
  intros Hn. split; [apply next_pow2_is_pow2; exact Hn|].
  split; [apply next_pow2_ge; lia|].
  intros m (k & Hk & ->) Hle.
  destruct (Z.eq_dec n (2 ^ 63)) as [-> | Hne].
  - rewrite next_pow2_top by lia. exact Hle.
  - rewrite next_pow2_log2_up by lia.
    apply Z.pow_le_mono_r; [lia|].
    apply Z.log2_up_le_pow2; lia.
Qed.

(* A thousand is rounded up to 1024, and no smaller power of two will do. *)
Lemma next_pow2_least_witness :
  next_pow2 1000 = 1024 /\ is_pow2 (next_pow2 1000) /\ next_pow2 1000 <= 2048.
Proof.
  destruct (next_pow2_least 1000) as (P & _ & L); [lia|].
  split; [reflexivity|]. split; [exact P|].
  apply L; [exists 11; split; [lia | reflexivity] | lia].
Defined.

(** X2.  On every non-zero size_t, next_pow2 stays a size_t and is never
    below its argument (there is no wrap-around to 0); applying it twice is
    applying it once; and above 2^63, where no power of two fits a size_t, it
    returns its argument. *)
Theorem next_pow2_size_t n :
  0 < n < SIZE_MOD ->
  n <= next_pow2 n < SIZE_MOD
  /\ next_pow2 (next_pow2 n) = next_pow2 n
  /\ (2 ^ 63 <= n -> next_pow2 n = n).
Proof.
  intros Hn. split; [split; [apply next_pow2_ge; lia | apply next_pow2_bound; exact Hn]|].
  split; [|apply next_pow2_top].
  destruct (Z.le_gt_cases n (2 ^ 63)).
  - apply next_pow2_fix, next_pow2_is_pow2. lia.
  - rewrite (next_pow2_top n) by lia. apply next_pow2_top. lia.
Qed.

(* The largest size_t and a number just above a power of two. *)
Lemma next_pow2_size_t_witness :
  next_pow2 SIZE_MAX = SIZE_MAX /\ next_pow2 (next_pow2 33) = next_pow2 33.
Proof.
  destruct (next_pow2_size_t SIZE_MAX) as (_ & _ & T);
    [rewrite SIZE_MAX_eq, SIZE_MOD_eq; lia|].
  destruct (next_pow2_size_t 33) as (_ & I & _); [rewrite SIZE_MOD_eq; lia|].
  split; [apply T; rewrite SIZE_MAX_eq; lia | exact I].
Defined.

(** ** The handles and the end of a pipe *)

(** X10.  Minting a handle and freeing it again leaves the pipe as it was:
    for a producer handle as long as some handle exists, for a consumer
    handle as long as a consumer exists. *)
Theorem handle_new_free_round_trip a p :
  refcount_ok (producer_refcount p) -> refcount_ok (consumer_refcount p) ->
  (0 < producer_refcount p \/ 0 < consumer_refcount p ->
   pipe_producer_free (snd (pipe_producer_new a p)) = Some p)
  /\ (0 < consumer_refcount p ->
      pipe_consumer_free (snd (pipe_consumer_new a p)) = Some p).
Proof.
  unfold refcount_ok. rewrite SIZE_MAX_eq.
  destruct p as [es ec cap mn mx buf be bg en pr cr].
  cbn [producer_refcount consumer_refcount]. intros Hp Hc.
  unfold pipe_producer_free, pipe_consumer_free, pipe_producer_new,
    pipe_consumer_new, requires_deallocation, set_producer_refcount,
    set_consumer_refcount, set_buffer.
  cbn [snd producer_refcount consumer_refcount
       elem_size elem_count capacity min_cap max_cap buffer bufend begin end_].
  rewrite (wrap_small (pr + 1)), (wrap_small (cr + 1)) by (rewrite SIZE_MOD_eq; lia).
  replace (pr + 1 - 1) with pr by lia. replace (cr + 1 - 1) with cr by lia.
  rewrite (wrap_small pr), (wrap_small cr) by (rewrite SIZE_MOD_eq; lia).
  split.
  - intros Hlive.
    destruct (Z.eqb_spec pr 0); destruct (Z.eqb_spec cr 0); cbn [andb];
      try lia; reflexivity.
  - intros Hlive. destruct (Z.eqb_spec cr 0); [lia|].
    cbn [producer_refcount consumer_refcount].
    destruct (Z.eqb_spec cr 0); [lia|]. rewrite andb_false_r. reflexivity.
Qed.

(* A fresh pipe, whose root handle counts as a producer and a consumer. *)
Lemma handle_new_free_round_trip_witness :
  pipe_producer_free (snd (pipe_producer_new 4096 (pipe_new RELEASE_MINCAP 4 0)))
  = Some (pipe_new RELEASE_MINCAP 4 0)
  /\ pipe_consumer_free (snd (pipe_consumer_new 4096 (pipe_new RELEASE_MINCAP 4 0)))
     = Some (pipe_new RELEASE_MINCAP 4 0).
Proof.
  destruct (handle_new_free_round_trip 4096 (pipe_new RELEASE_MINCAP 4 0))
    as (P & C);
    [unfold refcount_ok; rewrite SIZE_MAX_eq; cbn; lia
    | unfold refcount_ok; rewrite SIZE_MAX_eq; cbn; lia |].
  split; [apply P; left; cbn; lia | apply C; cbn; lia].
Defined.

(** X11.  A pipe is deallocated exactly by the free that takes its last
    handle: pipe_producer_free when it holds the only producer and no
    consumer is left, pipe_consumer_free when it holds the only consumer and
    no producer is left, pipe_free when one producer and one consumer are
    left. *)
Theorem deallocated_with_last_handle p :
  size_t (producer_refcount p) -> size_t (consumer_refcount p) ->
  (0 < producer_refcount p ->
   (pipe_producer_free p = None
    <-> producer_refcount p = 1 /\ consumer_refcount p = 0))
  /\ (0 < consumer_refcount p ->
      (pipe_consumer_free p = None
       <-> consumer_refcount p = 1 /\ producer_refcount p = 0))
  /\ (0 < producer_refcount p -> 0 < consumer_refcount p ->
      (pipe_free p = None
       <-> producer_refcount p = 1 /\ consumer_refcount p = 1)).
Proof.
  unfold size_t. rewrite SIZE_MOD_eq.
  destruct p as [es ec cap mn mx buf be bg en pr cr].
  cbn [producer_refcount consumer_refcount]. intros Hp Hc.
  unfold pipe_producer_free, pipe_consumer_free, pipe_free,
    requires_deallocation, set_producer_refcount, set_consumer_refcount,
    set_buffer.
  cbn [producer_refcount consumer_refcount
       elem_size elem_count capacity min_cap max_cap buffer bufend begin end_].
  split; [|split].
  - intros H. rewrite wrap_small by (rewrite SIZE_MOD_eq; lia).
    destruct (Z.eqb_spec (pr - 1) 0); destruct (Z.eqb_spec cr 0); cbn [andb];
      split; intros E; try discriminate E; try reflexivity; lia.
  - intros H. rewrite wrap_small by (rewrite SIZE_MOD_eq; lia).
    destruct (Z.eqb_spec (cr - 1) 0);
      cbn [producer_refcount consumer_refcount];
      destruct (Z.eqb_spec pr 0); destruct (Z.eqb_spec (cr - 1) 0); cbn [andb];
      split; intros E; try discriminate E; try reflexivity; lia.
  - intros H1 H2. rewrite !wrap_small by (rewrite SIZE_MOD_eq; lia).
    destruct (Z.eqb_spec (pr - 1) 0); destruct (Z.eqb_spec (cr - 1) 0);
      cbn [andb]; split; intros E; try discriminate E; try reflexivity; lia.
Qed.

(* The root handle of a fresh pipe is its last handle. *)
Lemma deallocated_with_last_handle_witness :
  pipe_free (pipe_new RELEASE_MINCAP 1 0) = None.
Proof.
  destruct (deallocated_with_last_handle (pipe_new RELEASE_MINCAP 1 0))
    as (_ & _ & F);
    [unfold size_t; rewrite SIZE_MOD_eq; cbn; lia
    | unfold size_t; rewrite SIZE_MOD_eq; cbn; lia |].
  apply F; cbn; try lia.
Defined.

(** X12.  Freeing the last consumer handle while producers remain keeps the
    pipe alive but releases its buffer at once; the assertions of
    check_invariants hold of the pipe that is left. *)
Theorem last_consumer_releases_buffer d p :
  consumer_refcount p = 1 -> 0 < producer_refcount p ->
  exists p',
    pipe_consumer_free p = Some p'
    /\ buffer p' = None
    /\ consumer_refcount p' = 0
    /\ producer_refcount p' = producer_refcount p
    /\ check_invariants d p' = true.
Proof.
  intros Hc Hp.
  unfold pipe_consumer_free, requires_deallocation.
  cbn [consumer_refcount set_consumer_refcount]. rewrite Hc.
  change (wrap (1 - 1)) with 0. change (0 =? 0) with true. cbv iota.
  cbn [producer_refcount consumer_refcount set_buffer set_consumer_refcount].
  destruct (Z.eqb_spec (producer_refcount p) 0); [lia|]. cbn [andb].
  eexists. split; [reflexivity|]. repeat split.
Qed.

(* A pipe with one more producer handle than the root. *)
Lemma last_consumer_releases_buffer_witness :
  match run RELEASE_MINCAP (pipe_new RELEASE_MINCAP 1 0)
            [OpProducerNew; OpConsumerNew; OpFree; OpPush (repeat x41 3) 3] with
  | Some p =>
      exists p', pipe_consumer_free p = Some p' /\ buffer p' = None
  | None => False
  end.
Proof.
  destruct (run _ _ _) as [p|] eqn:E; vm_compute in E; [|discriminate E].
  injection E as <-.
  match goal with
  | |- exists p', pipe_consumer_free ?p = _ /\ _ =>
      destruct (last_consumer_releases_buffer RELEASE_MINCAP p)
        as (p' & F & B & _); [reflexivity | reflexivity |]
  end.
  exists p'. split; assumption.
Defined.

(** ** Fields that no action changes *)

Lemma exec_read_only d p o p' :
  exec d p o = Some p' ->
  elem_size p' = elem_size p /\ max_cap p' = max_cap p.
Proof.
  intros Hex. destruct o;
    try (match type of Hex with
         | exec _ _ ?o = _ =>
             destruct (exec_free_cases d p o p' I Hex) as (S & _ & _ & _ & X)
         end; split; assumption).
  - destruct (exec_push_cases _ _ _ _ _ Hex) as [-> | (_ & _ & _ & ->)];
      [split; reflexivity|].
    destruct (push_without_locking_fields p elems
                (min count (wrap (max_cap p - elem_count p))))
      as (S & _ & _ & X & _). split; assumption.
  - destruct (exec_pop_cases _ _ _ _ Hex) as [-> | (_ & ->)];
      [split; reflexivity|].
    pose proof (pop_without_locking_fields p (clamp_count p count)) as F.
    destruct (pop_without_locking p _) as [[q t] r]. cbn [fst].
    destruct F as (_ & S & _ & _ & X & _). split; assumption.
  - cbn [exec] in Hex. injection Hex as <-.
    destruct (pipe_reserve_fields d p count) as (S & _ & X & _).
    split; assumption.
Qed.

(** X13.  elem_size and max_cap are read-only: whatever the threads do to a
    pipe (pushes, pops, reserves, handles minted and freed), both keep the
    value they were created with.  This is what lets pipe_push and pipe_pop
    read them before taking the lock. *)
Theorem elem_size_and_max_cap_read_only d ops : forall p p',
  run d p ops = Some p' ->
  elem_size p' = elem_size p /\ max_cap p' = max_cap p.
Proof.
  induction ops as [|o ops IH]; intros p p' Hrun.
  - cbn in Hrun. injection Hrun as <-. split; reflexivity.
  - cbn [run] in Hrun. destruct (exec d p o) as [q|] eqn:Hex; [|discriminate].
    destruct (exec_read_only d p o q Hex) as (S & X).
    destruct (IH q p' Hrun) as (S' & X'). split; congruence.
Qed.

(* A history with every kind of action. *)
Lemma elem_size_and_max_cap_read_only_witness :
  match run DEBUG_MINCAP (pipe_new DEBUG_MINCAP 4 100)
            [OpProducerNew; OpConsumerNew; OpReserve 64;
             OpPush (repeat x41 400) 100; OpPop 70; OpFree;
             OpProducerFree; OpPop 100] with
  | Some p => elem_size p = 4 /\ max_cap p = 128
  | None => False
  end.
Proof.
  destruct (run _ _ _) as [p|] eqn:E.
  - exact (elem_size_and_max_cap_read_only _ _ _ _ E).
  - vm_compute in E. discriminate E.
Defined.

(** ** When pipe_pop and pipe_push wait *)

(** X15.  pipe_pop does not wait when the pipe holds the elements asked for,
    the request being clamped to max_cap: it returns min(count, max_cap)
    elements at once, whatever the producers do.  In particular a request
    for more than max_cap elements is served from a full pipe instead of
    waiting for ever. *)
Theorem pipe_pop_enough p count s :
  size_t count -> 0 <= max_cap p -> elem_count p < SIZE_MOD ->
  Z.min count (max_cap p) <= elem_count p ->
  exists target p',
    pipe_pop p count s = PopReturned (Z.min count (max_cap p)) target p' s
    /\ elem_count p' = elem_count p - Z.min count (max_cap p).
Proof.
  unfold size_t. intros Hc Hx Hsz He.
  assert (Hcl : clamp_count p count = Z.min count (max_cap p)).
  { unfold clamp_count. zbool; lia. }
  unfold pipe_pop. rewrite Hcl.
  assert (W : wait_just_pushed (Z.min count (max_cap p)) s p = Woken p s).
  { destruct s; cbn [wait_just_pushed];
      destruct (Z.ltb_spec (elem_count p) (Z.min count (max_cap p))); try lia;
      reflexivity. }
  rewrite W. unfold pop_locked. rewrite Z.gtb_ltb.
  destruct (Z.ltb_spec 0 (elem_count p)).
  - pose proof (pop_without_locking_fields p (Z.min count (max_cap p))) as F.
    destruct (pop_without_locking p _) as [[p' t] r].
    destruct F as (-> & _ & E & _). rewrite min_spec in *.
    rewrite Z.min_l in * by lia.
    rewrite wrap_small in E by lia.
    exists t, p'. split; [reflexivity | exact E].
  - assert (Z.min count (max_cap p) = 0) as -> by lia.
    exists [], p. split; [reflexivity | lia].
Qed.

(* Scenario S5: the limit 8 gives max_cap = 32 without DEBUG; the pipe is
   full and a thousand elements are asked for. *)
Lemma pipe_pop_enough_witness :
  match run RELEASE_MINCAP (pipe_new RELEASE_MINCAP 1 8)
            [OpPush (repeat x41 40) 40] with
  | Some p =>
      exists target p', pipe_pop p 1000 [] = PopReturned 32 target p' []
                        /\ elem_count p' = 0
  | None => False
  end.
Proof.
  destruct (run _ _ _) as [p|] eqn:E; vm_compute in E; [|discriminate E].
  injection E as <-.
  match goal with
  | |- exists t p', pipe_pop ?p 1000 [] = _ /\ _ =>
      destruct (pipe_pop_enough p 1000 []) as (t & p' & R & C);
        [ | | | | exists t, p'; split; [exact R | exact C] ]
  end; cbn; unfold size_t; rewrite ?SIZE_MOD_eq; lia.
Defined.

Lemma wait_just_popped_room m s p :
  elem_count p <> m -> wait_just_popped m s p = Woken p s.
Proof.
  intros H. destruct s; cbn [wait_just_popped];
    destruct (Z.eqb_spec (elem_count p) m); try contradiction; reflexivity.
Qed.

(* A push that fits below max_cap is one critical section and one tail
   call. *)
Lemma pipe_push_fits fuel p elems count s :
  size_t count -> cap_bounds p -> 0 < consumer_refcount p ->
  0 < count -> elem_count p + count <= max_cap p ->
  pipe_push (S (S fuel)) p elems count s
  = PushReturned (push_without_locking p elems count) s.
Proof.
  intros Hc Hb Hcons Hpos Hfit. pose proof Hb as (He & Hm & Hcap & Hx).
  unfold size_t in Hc. rewrite SIZE_MAX_eq, SIZE_MOD_eq in *.
  cbn [pipe_push]. destruct (Z.eqb_spec count 0) as [|_]; [lia|].
  rewrite wait_just_popped_room by lia.
  unfold push_locked. destruct (Z.eqb_spec (consumer_refcount p) 0); [lia|].
  rewrite (wrap_small (max_cap p - elem_count p)) by (rewrite SIZE_MOD_eq; lia).
  rewrite min_spec, Z.min_l by lia.
  rewrite Z.sub_diag. change (wrap 0) with 0. change (0 =? 0) with true.
  reflexivity.
Qed.

(** X16.  With a single thread, a pipe_push of more elements than the room
    left below max_cap never returns: it stores the elements that fit, which
    fills the pipe, and then waits for a pop. *)
Theorem pipe_push_over_room_blocks fuel p elems count :
  size_t count -> cap_bounds p -> 0 < consumer_refcount p ->
  max_cap p < elem_count p + count ->
  exists q,
    pipe_push (S (S fuel)) p elems count [] = PushBlocked q
    /\ elem_count q = max_cap p.
Proof.
  intros Hc Hb Hcons Hover. pose proof Hb as (He & Hm & Hcap & Hx).
  unfold size_t in Hc. rewrite SIZE_MAX_eq, SIZE_MOD_eq in *.
  cbn [pipe_push]. destruct (Z.eqb_spec count 0) as [|_]; [lia|].
  rewrite wait_just_popped_nil. unfold push_waits.
  rewrite Z.gtb_ltb. destruct (Z.ltb_spec 0 (consumer_refcount p)); [|lia].
  destruct (Z.eqb_spec (elem_count p) (max_cap p)) as [Hfull | Hroom]; cbn [andb].
  - exists p. split; [reflexivity | exact Hfull].
  - unfold push_locked. destruct (Z.eqb_spec (consumer_refcount p) 0); [lia|].
    rewrite (wrap_small (max_cap p - elem_count p)) by (rewrite SIZE_MOD_eq; lia).
    rewrite min_spec, Z.min_r by lia.
    set (k := max_cap p - elem_count p).
    destruct (push_without_locking_fields p elems k) as (_ & E & _ & X & _ & C & _).
    rewrite (wrap_small (count - k)) by (rewrite SIZE_MOD_eq; lia).
    destruct (Z.eqb_spec (count - k) 0); [lia|].
    rewrite wait_just_popped_nil. unfold push_waits. rewrite X, E, C.
    rewrite wrap_small by (rewrite SIZE_MOD_eq; lia).
    destruct (Z.eqb_spec (elem_count p + k) (max_cap p)); [|lia].
    rewrite Z.gtb_ltb. destruct (Z.ltb_spec 0 (consumer_refcount p)); [|lia].
    cbn [andb]. eexists. split; [reflexivity|].
    rewrite E, wrap_small by (rewrite SIZE_MOD_eq; lia). lia.
Qed.

(* Without DEBUG the limit 8 gives max_cap = 32: a push of 40 elements
   stores 32 and waits. *)
Lemma pipe_push_over_room_blocks_witness :
  exists q,
    pipe_push 2 (pipe_new RELEASE_MINCAP 1 8) (repeat x41 40) 40 []
    = PushBlocked q
    /\ elem_count q = 32.
Proof.
  apply (pipe_push_over_room_blocks 0 (pipe_new RELEASE_MINCAP 1 8)).
  - unfold size_t. rewrite SIZE_MOD_eq. lia.
  - apply pipe_new_cap_bounds; [right; reflexivity|].
    unfold size_t. rewrite SIZE_MOD_eq. lia.
  - cbn. lia.
  - cbv. reflexivity.
Defined.

(** ** The assertions of check_invariants *)

Lemma layout_check_invariants d p :
  layout_ok p -> cap_bounds p -> d <= min_cap p ->
  check_invariants d p = true.
Proof.
  intros L B Hd. pose proof (layout_ok_not_full p L) as Hnf.
  destruct L as (Hes & Hec & Hbe & Hbm & (m & Hm & Hl) & Hb & He & Hw).
  destruct B as (_ & Hmn & Hcap & Hx).
  unfold check_invariants, in_bounds. rewrite Hm.
  unfold wraps_around in *. rewrite !Z.geb_leb, Z.gtb_ltb in *.
  rewrite <- Hbe, (wrap_small (bufend p)) by lia.
  rewrite Z.eqb_refl.
  destruct (Z.eqb_spec (elem_size p) 0); [lia|].
  destruct (Z.leb_spec (elem_count p) (capacity p)); [|lia].
  destruct (Z.leb_spec 0 (begin p)); [|lia].
  destruct (Z.leb_spec (begin p) (bufend p)); [|lia].
  destruct (Z.leb_spec 0 (end_ p)); [|lia].
  destruct (Z.leb_spec (end_ p) (bufend p)); [|lia].
  destruct (Z.leb_spec d (min_cap p)); [|lia].
  destruct (Z.leb_spec (min_cap p) (max_cap p)); [|lia].
  destruct (Z.leb_spec (min_cap p) (capacity p)); [|lia].
  destruct (Z.leb_spec (capacity p) (max_cap p)); [|lia].
  destruct (Z.eqb_spec (begin p) (bufend p)); [lia|].
  cbn [negb andb].
  destruct (Z.ltb_spec (end_ p) (begin p)); rewrite Hw; apply Z.eqb_eq;
    f_equal; lia.
Qed.

(** X3.  pipe_new(elem_size, limit) with elem_size > 0 returns a pipe of
    which every assertion of check_invariants holds: it is empty, has one
    producer and one consumer, its capacity is DEFAULT_MINCAP, and its
    max_cap is at least the limit (the largest size_t when the limit is 0). *)
Theorem pipe_new_check_invariants d es limit :
  valid_build d -> 0 < es -> es * d < SIZE_MOD -> size_t limit ->
  check_invariants d (pipe_new d es limit) = true
  /\ contents (pipe_new d es limit) = []
  /\ elem_count (pipe_new d es limit) = 0
  /\ capacity (pipe_new d es limit) = d
  /\ producer_refcount (pipe_new d es limit) = 1
  /\ consumer_refcount (pipe_new d es limit) = 1
  /\ limit <= max_cap (pipe_new d es limit)
  /\ (limit = 0 -> max_cap (pipe_new d es limit) = SIZE_MAX).
Proof.
  intros Hd Hes Hsz Hl.
  destruct (pipe_new_layout_ok d es limit Hd Hes Hsz) as (L & C).
  pose proof (pipe_new_cap_bounds d es limit Hd Hl) as B.
  destruct (pipe_new_fields d es limit) as (_ & E & Cap & M & X & P & Co).
  split; [apply layout_check_invariants; [exact L | exact B | lia]|].
  split; [exact C|]. split; [exact E|]. split; [exact Cap|].
  split; [exact P|]. split; [exact Co|].
  rewrite X. unfold size_t in Hl. rewrite SIZE_MAX_eq, SIZE_MOD_eq in *.
  destruct (valid_build_pow2 d Hd) as (_ & Hd2).
  split.
  - destruct (Z.eqb_spec limit 0); [lia|].
    rewrite max_spec. pose proof (next_pow2_ge (Z.max limit d) ltac:(lia)). lia.
  - intros ->. reflexivity.
Qed.

(* A bounded pipe of 8-byte elements. *)
Lemma pipe_new_check_invariants_witness :
  check_invariants RELEASE_MINCAP (pipe_new RELEASE_MINCAP 8 1000) = true
  /\ 1000 <= max_cap (pipe_new RELEASE_MINCAP 8 1000).
Proof.
  destruct (pipe_new_check_invariants RELEASE_MINCAP 8 1000)
    as (A & _ & _ & _ & _ & _ & M & _);
    [right; reflexivity | lia | rewrite SIZE_MOD_eq; cbv; reflexivity
    | unfold size_t; rewrite SIZE_MOD_eq; lia |].
  split; assumption.
Defined.

Ltac sane_tac :=
  split; [assumption | split; [assumption | split; lia]].

(* One call of a program keeps the pipe sane and moves bytes as a queue
   does. *)
Lemma session_head d p c cs p' out :
  0 <= d -> sane d p -> below_full d p (c :: cs) -> call_reserve_above d c ->
  session d p (c :: cs) = Some (p', out) ->
  exists q target out',
    session d q cs = Some (p', out')
    /\ out = target ++ out'
    /\ below_full d q cs
    /\ sane d q
    /\ target ++ contents q = contents p ++ pushed_bytes [c].
Proof.
  intros Hd (L & B & Hfloor & Hcons) Hbf Hr Hs.
  destruct c as [elems count | count | count];
    cbn [session below_full pushed_bytes call_reserve_above] in *.
  - (* Push *)
    destruct Hbf as (Hc & Hlen & Hbf).
    destruct (pipe_push _ p elems count []) as [q s| |] eqn:P; try discriminate.
    destruct Hbf as (Hnf & Hmem & Hbf).
    destruct (pipe_push_single p elems count q s Hc B Hcons P)
      as [(-> & ->) | (Hpos & Hfit & ->)].
    + assert (elems = []) as -> by (destruct elems; [reflexivity | cbn in Hlen; lia]).
      exists p, [], out.
      split; [exact Hs|]. split; [reflexivity|]. split; [exact Hbf|].
      split; [sane_tac|]. cbn [app]. now rewrite app_nil_r.
    + destruct (push_without_locking_fields p elems count)
        as (Es & Ec & Mn & _ & _ & Cr & _).
      unfold size_t in Hc. pose proof B as (He & _ & _ & Hx).
      rewrite SIZE_MAX_eq in Hx.
      rewrite wrap_small in Ec by (rewrite SIZE_MOD_eq; lia).
      destruct (push_without_locking_contents p elems count L) as (Lq & Cq);
        [lia | exact Hlen | rewrite SIZE_MOD_eq; lia | lia | congruence |].
      destruct (push_without_locking_cap_bounds p elems count B) as (Bq & _);
        [lia | lia |].
      exists (push_without_locking p elems count), [], out.
      split; [exact Hs|]. split; [reflexivity|]. split; [exact Hbf|].
      split; [sane_tac|].
      cbn [app]. rewrite app_nil_r. exact Cq.
  - (* Pop *)
    destruct Hbf as (Hc & Hbf).
    destruct (pipe_pop p count []) as [r t q s|] eqn:P; try discriminate.
    destruct (session d q cs) as [[p'' out']|] eqn:S'; try discriminate.
    injection Hs as <- <-.
    unfold pipe_pop in P. rewrite wait_just_pushed_nil in P.
    destruct (_ && _); [discriminate|].
    assert (Hn : 0 <= clamp_count p count).
    { unfold clamp_count, size_t, cap_bounds in *. zbool; lia. }
    unfold pop_locked in P.
    destruct (elem_count p >? 0).
    + pose proof (pop_without_locking_contents p (clamp_count p count) L Hn) as F.
      pose proof (pop_without_locking_fields p (clamp_count p count)) as G.
      destruct (pop_without_locking_cap_bounds p (clamp_count p count) B Hn)
        as (Bq & _).
      destruct (pop_without_locking p (clamp_count p count)) as [[q0 t0] r0].
      injection P as <- <- <- <-. cbn [fst] in Bq.
      destruct F as (_ & Lq & -> & Cq).
      destruct G as (_ & _ & _ & Mn & _ & _ & Cr & _).
      exists q0, (take (r0 * elem_size p) (contents p)), out'.
      split; [exact S'|]. split; [reflexivity|]. split; [exact Hbf|].
      split; [sane_tac|].
      rewrite Cq, app_nil_r. unfold take, drop. apply firstn_skipn.
    + injection P as <- <- <- <-.
      exists p, [], out'.
      split; [exact S'|]. split; [reflexivity|]. split; [exact Hbf|].
      split; [sane_tac|]. cbn [app]. now rewrite app_nil_r.
  - (* Reserve *)
    destruct Hbf as (Hc & Hmem & Hbf).
    destruct (pipe_reserve_contents d p count L Hmem) as (Lq & Cq).
    destruct (pipe_reserve_fields d p count) as (_ & _ & _ & _ & Cr & Mn & _).
    pose proof (pipe_reserve_cap_bounds d p count Hd
                  ltac:(unfold size_t in Hc; lia) B) as Bq.
    exists (pipe_reserve d p count), [], out.
    split; [exact Hs|]. split; [reflexivity|]. split; [exact Hbf|].
    split.
    + split; [assumption|]. split; [assumption|]. split; [|lia].
      rewrite Mn. unfold reserve_count, cap_bounds in *. rewrite min_spec.
      zbool; lia.
    + cbn [app]. rewrite app_nil_r. exact Cq.
Qed.

Lemma session_sane d cs : forall p p' out,
  0 <= d -> sane d p -> below_full d p cs -> Forall (call_reserve_above d) cs ->
  session d p cs = Some (p', out) -> sane d p'.
Proof.
  induction cs as [|c cs IH]; intros p p' out Hd Hs Hbf Hr Hrun.
  - cbn in Hrun. injection Hrun as <- _. exact Hs.
  - inversion Hr as [|? ? Hc Hcs]; subst.
    destruct (session_head d p c cs p' out Hd Hs Hbf Hc Hrun)
      as (q & t & out' & Hrun' & _ & Hbf' & Hq & _).
    exact (IH q p' out' Hd Hq Hbf' Hcs Hrun').
Qed.

(** X4.  In a program with one thread that starts from a fresh pipe, never
    fills the buffer exactly and reserves 0 or at least DEFAULT_MINCAP, every
    assertion of check_invariants holds of the pipe after the last call. *)
Theorem assertions_hold_below_full d es limit cs p out :
  valid_build d -> 0 < es -> es * d < SIZE_MOD -> size_t limit ->
  below_full d (pipe_new d es limit) cs ->
  Forall (call_reserve_above d) cs ->
  session d (pipe_new d es limit) cs = Some (p, out) ->
  check_invariants d p = true.
Proof.
  intros Hd Hes Hsz Hl Hbf Hr Hs.
  destruct (valid_build_pow2 d Hd) as (_ & Hd2).
  destruct (pipe_new_layout_ok d es limit Hd Hes Hsz) as (L0 & _).
  pose proof (pipe_new_cap_bounds d es limit Hd Hl) as B0.
  destruct (pipe_new_fields d es limit) as (_ & _ & _ & M & _ & _ & Co).
  assert (S0 : sane d (pipe_new d es limit)).
  { sane_tac. }
  destruct (session_sane d cs _ p out ltac:(lia) S0 Hbf Hr Hs) as (L & B & F & _).
  apply layout_check_invariants; assumption.
Qed.

(* Growth, a wrap, a reserve and a shrink. *)
Lemma assertions_hold_below_full_witness :
  match session RELEASE_MINCAP (pipe_new RELEASE_MINCAP 2 0)
          [Push (repeat x41 60) 30; Pop 20; Push (repeat x42 40) 20;
           Reserve 100; Push (repeat x43 120) 60; Pop 85] with
  | Some (p, _) => check_invariants RELEASE_MINCAP p = true
  | None => False
  end.
Proof.
  destruct (session _ _ _) as [[p out]|] eqn:E; [|vm_compute in E; discriminate E].
  refine (assertions_hold_below_full RELEASE_MINCAP 2 0 _ p out
            (or_intror eq_refl) _ _ _ _ _ E).
  - lia.
  - rewrite SIZE_MOD_eq. cbv. reflexivity.
  - unfold size_t. rewrite SIZE_MOD_eq. lia.
  - vm_compute. repeat split; congruence.
  - repeat (apply Forall_cons; [cbn; try exact I; right; cbv; congruence|]).
    apply Forall_nil.
Defined.

(** ** Resizing, popping and pushing on the buffered bytes *)

(** X5.  resize_buffer(p, n) on a well-formed pipe that is not full.  With
    the request clamped to max_cap, it leaves the pipe untouched when the
    clamped size does not exceed elem_count or is below min_cap; otherwise
    the pipe gets a block of exactly that many elements in which the
    buffered bytes lie unwrapped from offset 0, in the same order. *)
Theorem resize_buffer_linearizes p n :
  layout_ok p ->
  (Z.min n (max_cap p) <= elem_count p \/ Z.min n (max_cap p) < min_cap p ->
   resize_buffer p n = p)
  /\ (elem_count p < Z.min n (max_cap p) -> min_cap p <= Z.min n (max_cap p) ->
      elem_size p * Z.min n (max_cap p) < SIZE_MOD ->
      capacity (resize_buffer p n) = Z.min n (max_cap p)
      /\ begin (resize_buffer p n) = 0
      /\ end_ (resize_buffer p n) = elem_size p * elem_count p
      /\ bufend (resize_buffer p n) = elem_size p * Z.min n (max_cap p)
      /\ elem_count (resize_buffer p n) = elem_count p
      /\ contents (resize_buffer p n) = contents p
      /\ layout_ok (resize_buffer p n)).
Proof.
  intros L.
  assert (Hns : (if n >=? max_cap p then max_cap p else n) = Z.min n (max_cap p)).
  { rewrite Z.geb_leb. destruct (Z.leb_spec (max_cap p) n); lia. }
  split.
  - intros H. unfold resize_buffer. cbv zeta. rewrite Hns.
    destruct (Z.leb_spec (Z.min n (max_cap p)) (elem_count p)); [reflexivity|].
    destruct (Z.ltb_spec (Z.min n (max_cap p)) (min_cap p)); [reflexivity | lia].
  - intros H1 H2 Hsz.
    assert (Hrc : resized_capacity p n = Z.min n (max_cap p)).
    { unfold resized_capacity. cbv zeta. rewrite Hns.
      destruct (Z.leb_spec (Z.min n (max_cap p)) (elem_count p)); [lia|].
      destruct (Z.ltb_spec (Z.min n (max_cap p)) (min_cap p)); [lia|].
      reflexivity. }
    destruct (resize_buffer_contents p n L) as (L' & C'); [rewrite Hrc; exact Hsz|].
    destruct (resize_buffer_fields p n) as (Es & Ec & _ & _ & _ & _ & Cap).
    assert (Hb : begin (resize_buffer p n) = 0).
    { unfold resize_buffer. cbv zeta. rewrite Hns.
      destruct (Z.leb_spec (Z.min n (max_cap p)) (elem_count p)); [lia|].
      destruct (Z.ltb_spec (Z.min n (max_cap p)) (min_cap p)); [lia|].
      cbn [orb]. destruct (copy_pipe_into_new_buf p _) as [nb e]. reflexivity. }
    pose proof L' as (_ & _ & Hbe & _ & _ & _ & He & Hw).
    unfold wraps_around in Hw. rewrite Hb, Z.gtb_ltb in Hw.
    destruct (Z.ltb_spec (end_ (resize_buffer p n)) 0); [lia|].
    rewrite Es, Ec in Hw. rewrite Es, Cap, Hrc in Hbe.
    rewrite Cap, Hrc.
    split; [reflexivity|]. split; [exact Hb|]. split; [lia|].
    split; [exact Hbe|]. split; [exact Ec|]. split; [exact C' | exact L'].
Qed.

(* A wrapped pipe of 20 bytes is moved to a block of 64. *)
Lemma resize_buffer_linearizes_witness :
  match session RELEASE_MINCAP (pipe_new RELEASE_MINCAP 1 0)
          [Push (repeat x41 30) 30; Pop 20; Push (repeat x42 10) 10] with
  | Some (p, _) =>
      begin p = 20 /\ end_ p = 8
      /\ begin (resize_buffer p 64) = 0 /\ end_ (resize_buffer p 64) = 20
      /\ contents (resize_buffer p 64) = repeat x41 10 ++ repeat x42 10
  | None => False
  end.
Proof.
  destruct (session _ _ _) as [[p out]|] eqn:E; vm_compute in E;
    [|discriminate E].
  injection E as <- _.
  match goal with
  | |- _ /\ _ /\ begin (resize_buffer ?q 64) = _ /\ _ =>
      destruct (resize_buffer_linearizes q 64) as (_ & T)
  end.
  - unfold layout_ok. rewrite SIZE_MOD_eq. cbn.
    repeat split; try lia. eexists. split; reflexivity.
  - split; [reflexivity|]. split; [reflexivity|].
    destruct T as (_ & B & En & _ & _ & C & _);
      [cbn; lia | cbn; lia | rewrite SIZE_MOD_eq; cbn; lia |].
    split; [exact B|]. split; [exact En|]. rewrite C. reflexivity.
Defined.

(* A pop that does not wait, on the buffered bytes. *)
Lemma pipe_pop_nowait p count s :
  layout_ok p -> cap_bounds p -> size_t count ->
  Z.min count (max_cap p) <= elem_count p \/ producer_refcount p = 0 ->
  exists p',
    let ret := Z.min (Z.min count (max_cap p)) (elem_count p) in
    pipe_pop p count s
    = PopReturned ret (take (ret * elem_size p) (contents p)) p' s
    /\ contents p' = drop (ret * elem_size p) (contents p)
    /\ elem_count p' = elem_count p - ret
    /\ layout_ok p' /\ cap_bounds p'
    /\ elem_size p' = elem_size p /\ max_cap p' = max_cap p
    /\ producer_refcount p' = producer_refcount p
    /\ consumer_refcount p' = consumer_refcount p.
Proof.
  intros L B Hc Hw. pose proof B as (He & Hm & Hcap & Hx).
  unfold size_t in Hc. rewrite SIZE_MAX_eq, SIZE_MOD_eq in *.
  assert (Hcl : clamp_count p count = Z.min count (max_cap p)).
  { unfold clamp_count. rewrite Z.gtb_ltb.
    destruct (Z.ltb_spec (max_cap p) count); lia. }
  unfold pipe_pop. rewrite Hcl.
  assert (W : wait_just_pushed (Z.min count (max_cap p)) s p = Woken p s).
  { destruct s; cbn [wait_just_pushed]; rewrite Z.gtb_ltb;
      destruct (Z.ltb_spec (elem_count p) (Z.min count (max_cap p)));
      destruct (Z.ltb_spec 0 (producer_refcount p)); try lia; reflexivity. }
  rewrite W. unfold pop_locked. rewrite Z.gtb_ltb. cbv zeta.
  destruct (Z.ltb_spec 0 (elem_count p)).
  - pose proof (pop_without_locking_contents p (Z.min count (max_cap p)) L
                  ltac:(lia)) as F.
    pose proof (pop_without_locking_fields p (Z.min count (max_cap p))) as G.
    destruct (pop_without_locking_cap_bounds p (Z.min count (max_cap p)) B
                ltac:(lia)) as (B' & _).
    destruct (pop_without_locking p _) as [[p' t] r]. cbn [fst] in B'.
    destruct F as (-> & L' & -> & C').
    destruct G as (_ & Es & E & _ & Mx & Pr & Cr & _).
    rewrite wrap_small in E by (rewrite SIZE_MOD_eq; lia).
    exists p'. split; [reflexivity|]. split; [exact C'|].
    split; [exact E|]. split; [exact L'|]. split; [exact B'|].
    split; [exact Es|]. split; [exact Mx|]. split; [exact Pr | exact Cr].
  - assert (E0 : elem_count p = 0) by lia.
    rewrite E0, Z.min_r by lia.
    exists p. split; [reflexivity|]. split; [reflexivity|].
    split; [lia|]. split; [exact L|]. split; [exact B|].
    split; [reflexivity|]. split; [reflexivity|]. split; reflexivity.
Qed.

(** X8.  pipe_pop on a well-formed pipe that is not full and either holds
    the elements asked for or has no producer left: it returns without
    waiting, the elements it hands over are the oldest buffered ones in
    their order, as many as asked (at most max_cap) or as are there, and the
    rest stays buffered in its order. *)
Theorem pipe_pop_oldest p count s :
  layout_ok p -> cap_bounds p -> size_t count ->
  Z.min count (max_cap p) <= elem_count p \/ producer_refcount p = 0 ->
  exists p',
    let ret := Z.min (Z.min count (max_cap p)) (elem_count p) in
    pipe_pop p count s
    = PopReturned ret (take (ret * elem_size p) (contents p)) p' s
    /\ contents p' = drop (ret * elem_size p) (contents p)
    /\ elem_count p' = elem_count p - ret
    /\ layout_ok p'.
Proof.
  intros L B Hc Hw.
  destruct (pipe_pop_nowait p count s L B Hc Hw) as (p' & R & C & E & L' & _).
  exists p'. split; [exact R|]. split; [exact C|]. split; [exact E | exact L'].
Qed.

(* Five bytes A then five bytes B are buffered; a pop of seven gives the
   five A and two B. *)
Lemma pipe_pop_oldest_witness :
  match session RELEASE_MINCAP (pipe_new RELEASE_MINCAP 1 0)
          [Push (repeat x41 5) 5; Push (repeat x42 5) 5] with
  | Some (p, _) =>
      exists p', pipe_pop p 7 [] = PopReturned 7 (repeat x41 5 ++ repeat x42 2) p' []
                 /\ contents p' = repeat x42 3
  | None => False
  end.
Proof.
  destruct (session _ _ _) as [[p out]|] eqn:E; vm_compute in E;
    [|discriminate E].
  injection E as <- _.
  match goal with
  | |- exists p', pipe_pop ?q 7 [] = _ /\ _ =>
      destruct (pipe_pop_oldest q 7 []) as (p' & R & C & _)
  end.
  - unfold layout_ok. rewrite SIZE_MOD_eq. cbn.
    repeat split; try lia. eexists. split; reflexivity.
  - unfold cap_bounds. rewrite SIZE_MAX_eq. cbn. lia.
  - unfold size_t. rewrite SIZE_MOD_eq. lia.
  - left. cbn. lia.
  - exists p'. split; [exact R | exact C].
Defined.

(** X9.  pipe_push of count > 0 elements that fit below max_cap, into a
    well-formed pipe with a consumer, when the push does not fill the
    buffer exactly: it returns without waiting whatever the other threads
    would do at a wake-up, all count elements are stored, and they come
    after the bytes already buffered, in the order of the array. *)
Theorem pipe_push_appends fuel p elems count s :
  layout_ok p -> cap_bounds p -> 0 < consumer_refcount p ->
  size_t count -> 0 < count ->
  Z.of_nat (length elems) = count * elem_size p ->
  elem_count p + count <= max_cap p ->
  elem_count p + count < capacity (push_without_locking p elems count) ->
  elem_size p * capacity (push_without_locking p elems count) < SIZE_MOD ->
  exists p',
    pipe_push (S (S fuel)) p elems count s = PushReturned p' s
    /\ contents p' = contents p ++ elems
    /\ elem_count p' = elem_count p + count
    /\ layout_ok p'.
Proof.
  intros L B Hcons Hc Hpos Hlen Hfit Hnf Hsz.
  exists (push_without_locking p elems count).
  split; [apply pipe_push_fits; assumption|].
  pose proof B as (He & _ & _ & Hx). rewrite SIZE_MAX_eq in Hx.
  destruct (push_without_locking_contents p elems count L) as (L' & C');
    [lia | exact Hlen | rewrite SIZE_MOD_eq; lia | exact Hnf | exact Hsz |].
  destruct (push_without_locking_cap_bounds p elems count B) as (_ & E);
    [lia | lia |].
  split; [exact C'|]. split; [exact E | exact L'].
Qed.

(* Forty bytes into a fresh pipe of capacity 32: the buffer grows to 64. *)
Lemma pipe_push_appends_witness :
  exists p',
    pipe_push 2 (pipe_new RELEASE_MINCAP 1 0) (repeat x41 40) 40 []
    = PushReturned p' []
    /\ contents p' = repeat x41 40.
Proof.
  destruct (pipe_push_appends 0 (pipe_new RELEASE_MINCAP 1 0) (repeat x41 40) 40 [])
    as (p' & R & C & _).
  - apply pipe_new_layout_ok; [right; reflexivity | lia |].
    rewrite SIZE_MOD_eq. cbv. reflexivity.
  - apply pipe_new_cap_bounds; [right; reflexivity|].
    unfold size_t. rewrite SIZE_MOD_eq. lia.
  - cbn. lia.
  - unfold size_t. rewrite SIZE_MOD_eq. lia.
  - lia.
  - reflexivity.
  - cbv. congruence.
  - vm_compute. reflexivity.
  - rewrite SIZE_MOD_eq. vm_compute. reflexivity.
  - exists p'. split; [exact R | exact C].
Defined.

(** ** How the capacity moves *)

Lemma clamp_count_range p count :
  cap_bounds p -> size_t count -> 0 <= clamp_count p count.
Proof.
  unfold clamp_count, size_t, cap_bounds. intros. zbool; lia.
Qed.

(* The capacity after the critical section of a pop. *)
Lemma pop_capacity p count :
  cap_bounds p -> 0 <= count ->
  let p' := fst (fst (pop_without_locking p count)) in
  (capacity p' = capacity p
   \/ (capacity p' = capacity p / 2 /\ min_cap p <= capacity p / 2))
  /\ (capacity p / 2 < min_cap p -> capacity p' = capacity p).
Proof.
  intros (He & Hm & Hc & Hx) Hn. cbv zeta.
  pose proof (pop_without_locking_fields p count) as F.
  destruct (pop_without_locking p count) as [[p' t] r]. cbn [fst].
  destruct F as (_ & _ & _ & _ & _ & _ & _ & C). rewrite C.
  unfold resized_capacity. cbn [max_cap elem_count min_cap capacity set_elem_count].
  rewrite Z.geb_leb.
  assert (capacity p / 2 <= capacity p) by (apply Z.div_le_upper_bound; lia).
  destruct (_ <=? capacity p / 4); [|split; [left|]; reflexivity].
  destruct (Z.leb_spec (max_cap p) (capacity p / 2)).
  - assert (capacity p = 0) by (pose proof (Z.div_lt (capacity p) 2); lia).
    assert (max_cap p = 0) by lia.
    destruct (_ || _); split; try (left; lia); lia.
  - destruct (Z.leb_spec (capacity p / 2) (wrap (elem_count p - r)));
      destruct (Z.ltb_spec (capacity p / 2) (min_cap p)); cbn [orb];
      split; try (left; reflexivity); try reflexivity; lia.
Qed.

(* The capacity after the critical section of a push. *)
Lemma push_capacity p elems k :
  cap_bounds p -> 0 <= k -> elem_count p + k <= max_cap p ->
  let p' := push_without_locking p elems k in
  capacity p <= capacity p'
  /\ (elem_count p + k <= capacity p -> capacity p' = capacity p).
Proof.
  intros (He & Hm & Hc & Hx) Hk Hs. cbv zeta.
  destruct (push_without_locking_fields p elems k) as (_ & _ & _ & _ & _ & _ & C).
  rewrite C. rewrite SIZE_MAX_eq in Hx.
  rewrite wrap_small by (rewrite SIZE_MOD_eq; lia).
  rewrite Z.gtb_ltb.
  destruct (Z.ltb_spec (capacity p) (elem_count p + k)); [|split; [lia | reflexivity]].
  split; [|lia].
  unfold resized_capacity. cbv zeta. rewrite Z.geb_leb.
  pose proof (next_pow2_ge (elem_count p + k) ltac:(lia)).
  destruct (Z.leb_spec (max_cap p) (next_pow2 (elem_count p + k)));
    destruct (_ || _); lia.
Qed.

Ltac free_case Hex k :=
  match type of Hex with
  | exec ?d ?p ?o = Some ?p' =>
      let C := fresh "C" in
      let M := fresh "M" in
      destruct (exec_free_cases d p o p' I Hex) as (_ & _ & C & M & _);
      k C M
  end.

(** X18.  How one critical section moves the capacity, whatever the other
    threads do around it: a push never lowers it; a pop never raises it and
    at most halves it, never below min_cap; creating and freeing handles
    leaves it alone. *)
Theorem capacity_steps d p o p' :
  op_wf o -> cap_bounds p -> exec d p o = Some p' ->
  match o with
  | OpPush _ _ => capacity p <= capacity p'
  | OpPop _ =>
      capacity p' = capacity p
      \/ (capacity p' = capacity p / 2 /\ min_cap p <= capacity p')
  | OpReserve _ => True
  | _ => capacity p' = capacity p
  end.
Proof.
  intros Hwf B Hex. pose proof B as (He & Hm & Hc & Hx).
  destruct o; cbn [op_wf] in Hwf;
    try exact I;
    try (free_case Hex ltac:(fun C M => exact C)).
  - destruct (exec_push_cases d p elems count p' Hex)
      as [-> | (_ & _ & _ & ->)]; [lia|].
    destruct (push_chunk_range (max_cap p) p count ltac:(lia) Hx Hwf)
      as (Hk & Hfit & _).
    cbv zeta in Hk, Hfit.
    apply (push_capacity p elems _ B (proj1 Hk) Hfit).
  - destruct (exec_pop_cases d p count p' Hex) as [-> | (_ & ->)];
      [left; reflexivity|].
    destruct (pop_capacity p (clamp_count p count) B
                (clamp_count_range p count B Hwf)) as ([E | (E & F)] & _);
      [left; exact E | right; split; [exact E | lia]].
Qed.

(* A pop that leaves 10 of 64 halves the capacity. *)
Lemma capacity_steps_witness :
  match run RELEASE_MINCAP (pipe_new RELEASE_MINCAP 1 0)
            [OpPush (repeat x41 40) 40] with
  | Some p =>
      match exec RELEASE_MINCAP p (OpPop 30) with
      | Some p' => capacity p = 64 /\ capacity p' = 32
      | None => False
      end
  | None => False
  end.
Proof.
  destruct (run _ _ _) as [p|] eqn:E; vm_compute in E; [|discriminate E].
  injection E as <-.
  match goal with
  | |- match exec ?d ?q ?o with _ => _ end =>
      destruct (exec d q o) as [p'|] eqn:X; [|vm_compute in X; discriminate X];
      pose proof (capacity_steps d q o p') as T
  end.
  cbv beta iota in T. destruct T as [T | (T & _)].
  - unfold op_wf, size_t. rewrite SIZE_MOD_eq. lia.
  - unfold cap_bounds. rewrite SIZE_MAX_eq. cbn. lia.
  - exact X.
  - vm_compute in X. injection X as <-. cbv in T. discriminate T.
  - split; [reflexivity | exact T].
Defined.

(* Once capacity = min_cap, no critical section other than a reserve
   resizes the buffer as long as the elements fit. *)
Lemma exec_keeps_reserved d p o p' n :
  0 <= d -> op_wf o -> not_reserve o -> cap_bounds p ->
  0 < n -> capacity p = n -> min_cap p = n ->
  elem_count p + pushed o <= n ->
  exec d p o = Some p' ->
  capacity p' = n /\ min_cap p' = n.
Proof.
  intros Hd Hwf Hnr B Hn Hc Hm Hfit Hex. pose proof B as (He & _ & Hcap & Hx).
  destruct o; cbn [op_wf not_reserve pushed] in *; try contradiction;
    try (free_case Hex ltac:(fun C M => rewrite C, M; split; assumption)).
  - destruct (exec_push_cases d p elems count p' Hex)
      as [-> | (_ & _ & _ & ->)]; [split; assumption|].
    destruct (push_chunk_range (max_cap p) p count ltac:(lia) Hx Hwf)
      as (Hk & Hroom & _).
    cbv zeta in Hk, Hroom.
    destruct (push_capacity p elems _ B (proj1 Hk) Hroom) as (_ & ->); [|lia].
    destruct (push_without_locking_fields p elems
                (min count (wrap (max_cap p - elem_count p))))
      as (_ & _ & -> & _).
    split; assumption.
  - destruct (exec_pop_cases d p count p' Hex) as [-> | (_ & ->)];
      [split; assumption|].
    destruct (pop_capacity p (clamp_count p count) B
                (clamp_count_range p count B Hwf)) as (_ & ->).
    + pose proof (pop_without_locking_fields p (clamp_count p count)) as F.
      destruct (pop_without_locking p _) as [[q t] r]. cbn [fst].
      destruct F as (_ & _ & _ & -> & _). split; assumption.
    + rewrite Hc, Hm. apply Z.div_lt_upper_bound; lia.
Qed.

Lemma run_keeps_reserved d n ops : forall p p',
  0 <= d -> Forall op_wf ops -> Forall not_reserve ops -> cap_bounds p ->
  0 < n -> capacity p = n -> min_cap p = n ->
  elem_count p + total_pushed ops <= n ->
  run d p ops = Some p' ->
  capacity p' = n /\ min_cap p' = n.
Proof.
  induction ops as [|o ops IH]; intros p p' Hd Hwf Hnr B Hn Hc Hm Hfit Hrun.
  - cbn in Hrun. injection Hrun as <-. split; assumption.
  - inversion Hwf as [|? ? Hwo Hwos]; subst.
    inversion Hnr as [|? ? Hno Hnos]; subst.
    cbn [run] in Hrun. destruct (exec d p o) as [q|] eqn:Hex; [|discriminate].
    assert (Hpos : 0 <= total_pushed ops).
    { clear -Hwos. induction ops as [|o' ops IH']; [cbn; lia|].
      inversion Hwos as [|? ? H1 H2]; subst. specialize (IH' H2).
      destruct o'; cbn [total_pushed op_wf] in *; unfold size_t in *; lia. }
    assert (Hpo : 0 <= pushed o).
    { destruct o; cbn [pushed op_wf] in *; unfold size_t in *; lia. }
    assert (Hsum : total_pushed (o :: ops) = pushed o + total_pushed ops).
    { destruct o; cbn [total_pushed pushed]; lia. }
    rewrite Hsum in Hfit.
    destruct (exec_keeps_reserved d p o q (capacity p) Hd Hwo Hno B
                ltac:(lia) eq_refl ltac:(lia) ltac:(lia) Hex) as (Cq & Mq).
    destruct (exec_cap_bounds d p o q Hd Hwo B Hex) as (Bq & _ & Eq).
    apply (IH q p' Hd Hwos Hnos Bq Hn); try assumption; lia.
Qed.

(** X14.  pipe_reserve(p, n) with elem_count < n <= max_cap sets the
    capacity and min_cap to n, and from then on no push, pop or handle
    operation of any thread resizes the buffer, as long as the elements
    offered to the pipe fit in the n reserved places and nobody reserves
    again. *)
Theorem reserve_prevents_resize d p n ops p' :
  0 <= d -> cap_bounds p -> elem_count p < n <= max_cap p ->
  Forall op_wf ops -> Forall not_reserve ops ->
  elem_count p + total_pushed ops <= n ->
  run d (pipe_reserve d p n) ops = Some p' ->
  capacity (pipe_reserve d p n) = n /\ capacity p' = n /\ min_cap p' = n.
Proof.
  intros Hd B Hn Hwf Hnr Hfit Hrun. pose proof B as (He & Hm & Hcap & Hx).
  destruct (pipe_reserve_fields d p n) as (_ & Ec & _ & _ & _ & Mn & Cp).
  assert (Hrc : reserve_count d n = n).
  { unfold reserve_count. destruct (Z.eqb_spec n 0); [lia | reflexivity]. }
  rewrite Hrc in *. rewrite min_spec, Z.min_l in * by lia.
  destruct (Z.leb_spec n (elem_count p)); [lia|].
  assert (Cn : capacity (pipe_reserve d p n) = n).
  { rewrite Cp. unfold resized_capacity.
    cbn [max_cap elem_count min_cap capacity set_min_cap].
    rewrite Z.geb_leb.
    destruct (Z.leb_spec (max_cap p) n);
    [replace (max_cap p) with n by lia|];
      destruct (Z.leb_spec n (elem_count p)); try lia;
      destruct (Z.ltb_spec n n); try lia; reflexivity. }
  split; [exact Cn|].
  apply (run_keeps_reserved d n ops (pipe_reserve d p n) p' Hd Hwf Hnr);
    try assumption; try lia.
  apply pipe_reserve_cap_bounds; [exact Hd | lia | exact B].
Qed.

(* 100 places are reserved; 100 elements go in and 95 come out without a
   reallocation, where the pipe would otherwise have grown to 128 and shrunk
   to 32. *)
Lemma reserve_prevents_resize_witness :
  exists p',
    run RELEASE_MINCAP
        (pipe_reserve RELEASE_MINCAP (pipe_new RELEASE_MINCAP 1 0) 100)
        [OpPush (repeat x41 60) 60; OpPush (repeat x42 40) 40; OpPop 95]
    = Some p'
    /\ capacity p' = 100 /\ elem_count p' = 5.
Proof.
  destruct (run _ _ _) as [p'|] eqn:E; [|vm_compute in E; discriminate E].
  exists p'. split; [reflexivity|].
  pose proof (fun H1 H2 H3 H4 H5 H6 =>
    reserve_prevents_resize RELEASE_MINCAP
      (pipe_new RELEASE_MINCAP 1 0) 100 _ p' H1 H2 H3 H4 H5 H6 E) as T.
  destruct T as (_ & C & _).
  - unfold RELEASE_MINCAP. lia.
  - apply pipe_new_cap_bounds; [right; reflexivity|].
    unfold size_t. rewrite SIZE_MOD_eq. lia.
  - vm_compute. split; [reflexivity | discriminate].
  - repeat (apply Forall_cons;
            [unfold op_wf, size_t; rewrite SIZE_MOD_eq; lia|]).
    apply Forall_nil.
  - repeat (apply Forall_cons; [exact I|]). apply Forall_nil.
  - cbn. lia.
  - split; [exact C|]. vm_compute in E. injection E as <-. reflexivity.
Defined.

(** ** The worker of a pipeline stage *)



(* The worker keeps a pipe that can hold something and has a producer. *)
Lemma process_pipe_waits_fuel proc : forall fuel buf inp outp,
  cap_bounds inp -> 0 < max_cap inp -> 0 < producer_refcount inp ->
  match process_pipe fuel proc buf inp outp [] with
  | WorkerExited _ _ _ => False
  | _ => True
  end.
Proof.
  induction fuel as [|fuel IH]; intros buf inp outp B Hx Hp; [exact I|].
  assert (Hsz : size_t BUFFER_SIZE).
  { unfold size_t, BUFFER_SIZE. rewrite SIZE_MOD_eq. lia. }
  pose proof (clamp_count_range inp BUFFER_SIZE B Hsz) as Hn.
  assert (Hc : 0 < clamp_count inp BUFFER_SIZE).
  { unfold clamp_count, BUFFER_SIZE. rewrite Z.gtb_ltb.
    destruct (Z.ltb_spec (max_cap inp) 32); lia. }
  cbn [process_pipe]. unfold pipe_pop. rewrite wait_just_pushed_nil.
  rewrite Z.gtb_ltb.
  destruct (Z.ltb_spec (elem_count inp) (clamp_count inp BUFFER_SIZE));
    destruct (Z.ltb_spec 0 (producer_refcount inp)); try lia; cbn [andb];
    [exact I|].
  unfold pop_locked. rewrite Z.gtb_ltb.
  destruct (Z.ltb_spec 0 (elem_count inp)); [|lia].
  pose proof (pop_without_locking_fields inp (clamp_count inp BUFFER_SIZE)) as F.
  destruct (pop_without_locking_cap_bounds inp (clamp_count inp BUFFER_SIZE) B Hn)
    as (B' & _).
  destruct (pop_without_locking inp _) as [[q t] r]. cbn [fst] in B'.
  destruct F as (-> & _ & _ & _ & Mx & Pr & _).
  rewrite min_spec, Z.min_l by lia.
  destruct (Z.eqb_spec (clamp_count inp BUFFER_SIZE) 0); [lia|].
  destruct (proc _ _ outp) as [o|]; [|exact I].
  apply IH; [exact B' | lia | lia].
Qed.

(* With a producer left and nobody else running, the worker takes full
   batches as long as there is one and then sleeps in pipe_pop. *)
Lemma process_pipe_blocks_fuel proc :
  (forall b n o, exists o', proc b n o = Some o') ->
  forall fuel buf inp outp,
  layout_ok inp -> cap_bounds inp -> 0 < max_cap inp ->
  0 < producer_refcount inp ->
  (Z.to_nat (elem_count inp) < fuel)%nat ->
  exists batches outp' q,
    concat batches ++ contents q = contents inp
    /\ Forall (fun b => Z.of_nat (length b)
                        = Z.min BUFFER_SIZE (max_cap inp) * elem_size inp)
              batches
    /\ feed proc (elem_size inp) buf batches outp = Some outp'
    /\ process_pipe fuel proc buf inp outp [] = WorkerBlocked q outp'
    /\ elem_count q = elem_count inp mod Z.min BUFFER_SIZE (max_cap inp).
Proof.
  intros Hproc. induction fuel as [|fuel IH]; intros buf inp outp L B Hx Hp Hf;
    [lia|].
  assert (Hsz : size_t BUFFER_SIZE).
  { unfold size_t, BUFFER_SIZE. rewrite SIZE_MOD_eq. lia. }
  pose proof B as (He & _ & Hcap & _).
  pose proof L as (Hes & _).
  pose proof (length_contents inp L) as Hlen.
  assert (Hcl : clamp_count inp BUFFER_SIZE = Z.min BUFFER_SIZE (max_cap inp)).
  { unfold clamp_count. rewrite Z.gtb_ltb.
    destruct (Z.ltb_spec (max_cap inp) BUFFER_SIZE); lia. }
  set (n := Z.min BUFFER_SIZE (max_cap inp)) in *.
  assert (Hn : 0 < n <= BUFFER_SIZE) by (unfold n, BUFFER_SIZE; lia).
  destruct (Z.lt_ge_cases (elem_count inp) n) as [Hlt | Hge].
  - (* fewer than a batch: the worker sleeps *)
    exists [], outp, inp.
    split; [reflexivity|]. split; [apply Forall_nil|]. split; [reflexivity|].
    split; [|symmetry; apply Z.mod_small; lia].
    cbn [process_pipe]. unfold pipe_pop. rewrite Hcl, wait_just_pushed_nil.
    rewrite Z.gtb_ltb.
    destruct (Z.ltb_spec (elem_count inp) n); [|lia].
    destruct (Z.ltb_spec 0 (producer_refcount inp)); [|lia]. reflexivity.
  - (* a full batch *)
    destruct (pipe_pop_nowait inp BUFFER_SIZE [] L B Hsz
                ltac:(left; fold n; lia))
      as (q & R & C & E & L' & B' & Es & Mx & Pr & Cr).
    cbv zeta in R, C, E. fold n in R, C, E.
    rewrite (Z.min_l n (elem_count inp)) in R, C, E by lia.
    set (b := take (n * elem_size inp) (contents inp)) in *.
    assert (Hb : Z.of_nat (length b) = n * elem_size inp).
    { unfold b. rewrite length_take; nia. }
    cbn [process_pipe]. rewrite R. cbv zeta.
    destruct (Z.eqb_spec n 0) as [|_]; [lia|].
    destruct (Hproc (store buf 0 b) n outp) as (o & Ho). rewrite Ho.
    destruct (IH (store buf 0 b) q o L' B' ltac:(lia) ltac:(lia) ltac:(lia))
      as (bs & o' & q' & Cc & Fb & Fd & Run & E').
    rewrite Mx, Es in *. fold n in Fb, E'.
    exists (b :: bs), o', q'.
    split.
    { cbn [concat]. rewrite <- app_assoc, Cc, C. unfold b, take, drop.
      apply firstn_skipn. }
    split; [apply Forall_cons; [exact Hb | exact Fb]|].
    split.
    { cbn [feed]. rewrite Hb, Z.div_mul by lia. rewrite Ho. exact Fd. }
    split; [exact Run|].
    rewrite E', E. replace (elem_count inp - n) with (elem_count inp + (-1) * n) by lia.
    apply Z.mod_add. lia.
Qed.

(** X19.  As long as a producer handle of its input pipe is left and no
    other thread runs, the worker of a pipeline stage, process_pipe, on a
    well-formed input pipe that is not full and with a stage function that
    returns: it hands the buffered bytes to the stage function in their
    order, in full batches of n = min(BUFFER_SIZE, max_cap) elements, and
    then waits in pipe_pop for a push, with the elem_count mod n elements
    that do not make a batch still buffered; and it does not exit, however
    long it runs. *)
Theorem process_pipe_waits_for_producers proc fuel buf inp outp :
  (forall b n o, exists o', proc b n o = Some o') ->
  layout_ok inp -> cap_bounds inp -> 0 < max_cap inp ->
  0 < producer_refcount inp ->
  (Z.to_nat (elem_count inp) < fuel)%nat ->
  (exists batches outp' q,
     concat batches ++ contents q = contents inp
     /\ Forall (fun b => Z.of_nat (length b)
                         = Z.min BUFFER_SIZE (max_cap inp) * elem_size inp)
               batches
     /\ feed proc (elem_size inp) buf batches outp = Some outp'
     /\ process_pipe fuel proc buf inp outp [] = WorkerBlocked q outp'
     /\ elem_count q = elem_count inp mod Z.min BUFFER_SIZE (max_cap inp))
  /\ (forall fuel' i o s,
        process_pipe fuel' proc buf inp outp [] <> WorkerExited i o s).
Proof.
  intros Hproc L B Hx Hp Hf. split.
  - apply process_pipe_blocks_fuel; assumption.
  - intros fuel' i o s E.
    pose proof (process_pipe_waits_fuel proc fuel' buf inp outp B Hx Hp) as W.
    rewrite E in W. exact W.
Qed.


(* Forty bytes are buffered and the producer is still there: the worker
   hands over one batch of 32 and waits with 8 bytes left. *)
Lemma process_pipe_waits_for_producers_witness :
  match session RELEASE_MINCAP (pipe_new RELEASE_MINCAP 1 0)
          [Push (repeat x41 40) 40] with
  | Some (inp, _) =>
      exists batches q outp',
        process_pipe 41 (fun b n o => Some o) (malloc 32) inp
                     (pipe_new RELEASE_MINCAP 1 0) []
        = WorkerBlocked q outp'
        /\ Forall (fun b => Z.of_nat (length b) = 32) batches
        /\ concat batches ++ contents q = repeat x41 40
        /\ elem_count q = 8
  | None => False
  end.
Proof.
  destruct (session _ _ _) as [[p out]|] eqn:E; vm_compute in E;
    [|discriminate E].
  injection E as <- _.
  match goal with
  | |- exists bs q o', process_pipe ?f ?proc ?buf ?inp ?outp [] = _ /\ _ =>
      pose proof (process_pipe_waits_for_producers proc f buf inp outp) as T
  end.
  destruct T as ((batches & o' & q & Cc & Fb & _ & Run & Ec) & _).
  - intros b n o. eexists. reflexivity.
  - unfold layout_ok. rewrite SIZE_MOD_eq. cbn.
    repeat split; try lia. eexists. split; reflexivity.
  - unfold cap_bounds. rewrite SIZE_MAX_eq. cbn. lia.
  - vm_compute. reflexivity.
  - cbn. lia.
  - cbn. lia.
  - exists batches, q, o'. split; [exact Run|]. split; [exact Fb|].
    split; [exact Cc | exact Ec].
Defined.
